(** * pbixray-client: a shallow embedding of the client and its checked properties

    The development follows the layout of the repository:
    - [JS]        the string primitives of the platform the sources rely on
                  ([replace] with the regular expressions that occur in the
                  sources, [startsWith], [endsWith], [slice], [trim], [join]);
    - [Url]       [normalizeUrl] of [src/url.ts];
    - [Session]   [ClientSession], the request/response correlation;
    - [Transport] [streamableHttpClient], the NDJSON transport with endpoint
                  probing;
    - [Cli]       [runAnthropic], [processQuery] and the console loop of
                  [src/cli.ts];
    - [LatestModel] [fetchLatestAnthropicModel] of an earlier [src/cli.ts].

    Part I holds the definitions, one module for each of these; Part II
    holds what is proved of them, in the modules [JSFacts], [UrlFacts],
    [SessionFacts], [TransportFacts], [CliFacts] and [LatestModelFacts].

    Strings are Rocq strings: a character stands for one code unit, and only
    the code units 0..255 are represented. *)

From Stdlib Require Import ZArith Lia List String Ascii Bool Sorted.
From stdpp Require Import gmap strings list.

Open Scope string_scope.

(** stdpp keeps [String.append] from simplifying; here it computes. *)
#[local] Arguments String.append !_ _ / : simpl nomatch.

(* ##################################################################### *)
(** * Part I: the program *)
(* ##################################################################### *)

(* ===================================================================== *)
(** ** Platform string primitives *)
(* ===================================================================== *)

Module JS.

Definition is_slash (c : ascii) : bool := Ascii.eqb c "/".

(** [s.replace(/\/$/, '')]: without the [m] flag, [$] matches at the very end
    of the input only, so exactly one trailing slash is removed. *)
Fixpoint strip_trailing_slash (s : string) : string :=
  match s with
  | EmptyString => EmptyString
  | String c EmptyString => if is_slash c then EmptyString else s
  | String c s' => String c (strip_trailing_slash s')
  end.

(** [s.startsWith(p)] *)
Fixpoint startsWith (s p : string) {struct p} : bool :=
  match p with
  | EmptyString => true
  | String a p' =>
      match s with
      | EmptyString => false
      | String b s' => Ascii.eqb a b && startsWith s' p'
      end
  end.

(** [s.endsWith(p)]: some suffix of [s] is [p]. *)
Fixpoint endsWith (s p : string) : bool :=
  if String.eqb s p then true
  else match s with
       | EmptyString => false
       | String _ s' => endsWith s' p
       end.

(** [s.replace(/\/+/g, '/')]: every maximal run of slashes becomes one slash;
    a slash followed by a slash is dropped. *)
Fixpoint collapse_slashes (s : string) : string :=
  match s with
  | EmptyString => EmptyString
  | String c s' =>
      match s' with
      | String c' _ =>
          if is_slash c && is_slash c' then collapse_slashes s'
          else String c (collapse_slashes s')
      | EmptyString => String c EmptyString
      end
  end.

(** The class [\s] (which is also what [trim] removes), on the code units
    0..255: TAB, LF, VT, FF, CR, SPACE and NO-BREAK SPACE. *)
Definition is_space (c : ascii) : bool :=
  let n := nat_of_ascii c in
  ((9 <=? n)%nat && (n <=? 13)%nat) || (n =? 32)%nat || (n =? 160)%nat.

(** [s.replace(/\s+/g, ' ')]: every maximal run of white space becomes one
    space; a blank followed by a blank is dropped, the last of a run is
    replaced. *)
Fixpoint collapse_spaces (s : string) : string :=
  match s with
  | EmptyString => EmptyString
  | String c s' =>
      if is_space c then
        match s' with
        | String c' _ =>
            if is_space c' then collapse_spaces s'
            else String " " (collapse_spaces s')
        | EmptyString => String " " EmptyString
        end
      else String c (collapse_spaces s')
  end.

Fixpoint trimStart (s : string) : string :=
  match s with
  | EmptyString => EmptyString
  | String c s' => if is_space c then trimStart s' else s
  end.

Fixpoint trimEnd (s : string) : string :=
  match s with
  | EmptyString => EmptyString
  | String c s' =>
      match trimEnd s' with
      | EmptyString => if is_space c then EmptyString else String c EmptyString
      | t => String c t
      end
  end.

(** [s.trim()] *)
Definition trim (s : string) : string := trimEnd (trimStart s).

Fixpoint take (n : nat) (s : string) : string :=
  match n, s with
  | S n', String c s' => String c (take n' s')
  | _, _ => EmptyString
  end.

Fixpoint drop (n : nat) (s : string) : string :=
  match n, s with
  | S n', String _ s' => drop n' s'
  | _, _ => s
  end.

(** [s.slice(from, to)] for indices that are not negative. *)
Definition slice (from to : nat) (s : string) : string :=
  take (to - from) (drop from s).

(** [parts.join(sep)] on an array of strings. *)
Definition join (sep : string) (parts : list string) : string :=
  String.concat sep parts.

(** A string is truthy when it is not empty. *)
Definition truthy (s : string) : bool := negb (String.eqb s "").

(** [a || b] on strings. *)
Definition or_else (a b : string) : string := if truthy a then a else b.

Definition LF : string := String (ascii_of_nat 10) EmptyString.

Definition no_space (s : string) : Prop :=
  forall c, In c (list_ascii_of_string s) -> is_space c = false.

(** Does the string end with a slash? *)
Fixpoint last_is_slash (s : string) : bool :=
  match s with
  | EmptyString => false
  | String c EmptyString => is_slash c
  | String _ s' => last_is_slash s'
  end.

(** No two slashes in a row. *)
Fixpoint no_double_slash (s : string) : bool :=
  match s with
  | EmptyString => true
  | String c s' =>
      match s' with
      | String c' _ => negb (is_slash c && is_slash c') && no_double_slash s'
      | EmptyString => true
      end
  end.

(** Every character satisfies [P]. *)
Fixpoint all_chars (P : ascii -> bool) (s : string) : bool :=
  match s with
  | EmptyString => true
  | String c s' => P c && all_chars P s'
  end.

(** [c.toLowerCase()] on the code units 0..255: the letters [A]..[Z] and
    the capital letters of Latin-1 (192..222, the multiplication sign 215
    apart) are moved up by 32; the others stay. *)
Definition lower (c : ascii) : ascii :=
  let n := nat_of_ascii c in
  if ((65 <=? n)%nat && (n <=? 90)%nat)
     || ((192 <=? n)%nat && (n <=? 222)%nat && negb (n =? 215)%nat)
  then ascii_of_nat (n + 32)
  else c.

(** [s.toLowerCase()] *)
Fixpoint toLowerCase (s : string) : string :=
  match s with
  | EmptyString => EmptyString
  | String c s' => String (lower c) (toLowerCase s')
  end.

(** A character that is no white space, or the space itself. *)
Definition plain_space (c : ascii) : bool :=
  negb (is_space c) || Ascii.eqb c " ".

(** [s.includes(p)]: [p] begins at some position of [s]. *)
Fixpoint includes (s p : string) : bool :=
  startsWith s p
  || match s with
     | EmptyString => false
     | String _ s' => includes s' p
     end.

(** [a <= b] on strings: the order of the code units, a proper prefix coming
    first.  It is the order of [Array.prototype.sort] without a comparator,
    on strings. *)
Definition leq (a b : string) : bool := String.leb a b.

Fixpoint insert_sorted (x : string) (arr : list string) : list string :=
  match arr with
  | nil => x :: nil
  | y :: rest => if leq x y then x :: arr else y :: insert_sorted x rest
  end.

(** [arr.sort()] on an array of strings.  Equal strings cannot be told
    apart, so every sorting algorithm gives this array. *)
Definition sort (arr : list string) : list string :=
  fold_right insert_sorted nil arr.

End JS.

(* ===================================================================== *)
(** ** src/url.ts *)
(* ===================================================================== *)

Module Url.

(** The part of the platform's [URL] class that [normalizeUrl] uses.
    [URL_new s = None] stands for the constructor throwing. *)
Class URLImpl := {
  URL : Type;
  URL_new : string -> option URL;
  URL_pathname : URL -> string;
  URL_set_pathname : URL -> string -> URL;
  URL_toString : URL -> string
}.

(** The mount path after lines 3 and 5 of the source. *)
Definition normalizeMount (mountPath : string) : string :=
  let mountPath :=
    if JS.startsWith mountPath "/" then mountPath else "/" ++ mountPath in
  if String.eqb mountPath "/" then "/" else JS.strip_trailing_slash mountPath.

Definition normalizeUrl `{URLImpl} (baseUrl mountPath : string) : string :=
  let trimmedBase := JS.strip_trailing_slash baseUrl in
  let mountPath := normalizeMount mountPath in
  match URL_new trimmedBase with
  | Some parsed =>
      let currentPath :=
        JS.or_else (JS.strip_trailing_slash (URL_pathname parsed)) "" in
      if String.eqb currentPath mountPath then trimmedBase
      else if JS.endsWith currentPath mountPath then trimmedBase
      else
        let parsed :=
          URL_set_pathname parsed
            (JS.collapse_slashes (currentPath ++ mountPath)) in
        JS.strip_trailing_slash (URL_toString parsed)
  | None => trimmedBase ++ mountPath
  end.

(** *** A model of [URL] on http(s) URLs

    [HttpURL] models the platform class on strings of the form
    [http://authority path ?query #fragment] (or [https]) whose path needs
    neither escaping nor dot-segment removal.  Which authorities the platform
    accepts is a parameter, [accepts_authority]; an accepted authority is
    kept verbatim (the platform may lower-case it or drop a default port;
    nothing below depends on that).  A string that does not begin with one of
    the two schemes is rejected; for a string without any colon this is what
    the platform does (there is no scheme, and no base URL to resolve
    against). *)

Record HttpURL := mkURL {
  origin : string;      (* scheme, "://" and authority *)
  pathname : string;    (* begins with a slash *)
  search_hash : string  (* query and fragment, with their delimiters *)
}.

Definition is_delim (stops : string) (c : ascii) : bool :=
  existsb (Ascii.eqb c) (list_ascii_of_string stops).

Fixpoint take_until (stops : string) (s : string) : string :=
  match s with
  | EmptyString => EmptyString
  | String c s' =>
      if is_delim stops c then EmptyString else String c (take_until stops s')
  end.

Fixpoint drop_until (stops : string) (s : string) : string :=
  match s with
  | EmptyString => EmptyString
  | String c s' => if is_delim stops c then s else drop_until stops s'
  end.

Definition strip_scheme (s : string) : option (string * string) :=
  if JS.startsWith s "http://" then Some ("http://", JS.drop 7 s)
  else if JS.startsWith s "https://" then Some ("https://", JS.drop 8 s)
  else None.

Definition http_parse (accepts_authority : string -> bool) (s : string)
  : option HttpURL :=
  match strip_scheme s with
  | None => None
  | Some (scheme, rest) =>
      let authority := take_until "/?#" rest in
      let rest := drop_until "/?#" rest in
      let path := take_until "?#" rest in
      if String.eqb authority "" then None
      else if accepts_authority authority then
        Some {| origin := scheme ++ authority;
                pathname := if String.eqb path "" then "/" else path;
                search_hash := drop_until "?#" rest |}
      else None
  end.

(** Assigning [pathname] on an http(s) URL: the new path always begins with a
    slash. *)
Definition http_set_pathname (u : HttpURL) (p : string) : HttpURL :=
  {| origin := origin u;
     pathname := if JS.startsWith p "/" then p else "/" ++ p;
     search_hash := search_hash u |}.

Definition http_toString (u : HttpURL) : string :=
  origin u ++ pathname u ++ search_hash u.

Definition HttpURLImpl (accepts_authority : string -> bool) : URLImpl :=
  {| URL := HttpURL;
     URL_new := http_parse accepts_authority;
     URL_pathname := pathname;
     URL_set_pathname := http_set_pathname;
     URL_toString := http_toString |}.

(** *** Base URLs and mount paths in plain form *)

Definition is_scheme (s : string) : bool :=
  String.eqb s "http://" || String.eqb s "https://".

Definition in_range (lo hi : nat) (c : ascii) : bool :=
  (lo <=? nat_of_ascii c)%nat && (nat_of_ascii c <=? hi)%nat.

(** Lower-case letters, digits, dot, hyphen and colon. *)
Definition host_char (c : ascii) : bool :=
  in_range 97 122 c || in_range 48 57 c
  || Ascii.eqb c "." || Ascii.eqb c "-" || Ascii.eqb c ":".

(** Letters, digits, hyphen, underscore, tilde and the slash: characters a
    path keeps as they are. *)
Definition path_char (c : ascii) : bool :=
  in_range 97 122 c || in_range 65 90 c || in_range 48 57 c
  || Ascii.eqb c "-" || Ascii.eqb c "_" || Ascii.eqb c "~" || Ascii.eqb c "/".

Definition canonical_authority (a : string) : bool :=
  negb (String.eqb a "") && JS.all_chars host_char a.

(** A path of plain characters, empty or beginning with a slash, that does
    not end with two slashes. *)
Definition plain_path (p : string) : bool :=
  JS.all_chars path_char p
  && (String.eqb p "" || JS.startsWith p "/")
  && negb (JS.last_is_slash (JS.strip_trailing_slash p)).

(** A mount path of plain characters without two slashes in a row. *)
Definition plain_mount (m : string) : bool :=
  JS.all_chars path_char m && JS.no_double_slash m.

Definition begins_with_delim (stops rest : string) : bool :=
  match rest with
  | EmptyString => true
  | String c _ => is_delim stops c
  end.

(** A path of plain characters, empty or beginning with a slash, that does
    not end with a slash. *)
Definition settled (p : string) : Prop :=
  JS.all_chars path_char p = true
  /\ (p = EmptyString \/ JS.startsWith p "/" = true)
  /\ JS.last_is_slash p = false.

(** A platform that accepts the authorities made of lower-case letters,
    digits, dots, hyphens and colons. *)
Definition PlainURL : URLImpl := HttpURLImpl canonical_authority.

(** *** Bases with a query string or a fragment *)

(** Characters a query string and a fragment keep as they are: those of a
    plain path, and [?], [#], [=], [&], [.] and [%]. *)
Definition query_char (c : ascii) : bool :=
  path_char c || Ascii.eqb c "?" || Ascii.eqb c "#" || Ascii.eqb c "="
  || Ascii.eqb c "&" || Ascii.eqb c "." || Ascii.eqb c "%".

(** What follows the path of a URL: it begins with [?] or [#], is made of
    the characters above, and does not end with a slash. *)
Definition plain_query (q : string) : bool :=
  match q with
  | EmptyString => false
  | String c _ => is_delim "?#" c
  end
  && JS.all_chars query_char q
  && negb (JS.last_is_slash q).

End Url.

(* ===================================================================== *)
(** ** ClientSession: request/response correlation *)
(* ===================================================================== *)

Module Session.

Local Open Scope list_scope.

(** A key of the [pending] map: [number | string]. *)
Abbreviation Key := (Z + string)%type.

Record JsonRpcRequest {J : Type} := {
  req_id : Z;
  req_method : string;
  req_params : J
}.
Arguments JsonRpcRequest : clear implicits.

(** A [Transport]: the type of the JSON payloads it carries ([params],
    [result]), its state, and the two operations the session calls.  [send]
    may fail (its promise rejects): the boolean says whether it succeeded.
    The third member, [messages], is the inbound stream: it is what the
    environment feeds to the listener (see [Recv] below). *)
Class Transport := {
  Payload : Type;
  TransportState : Type;
  send : TransportState -> JsonRpcRequest Payload -> bool * TransportState;
  close_transport : TransportState -> TransportState
}.

Section WithTransport.

Context `{Transport}.

(** What an inbound message may carry as its [id]: a number or a string, or
    anything else (null, a fractional number, an object), which is never
    equal to a key of [pending]. *)
Inductive IdValue := IdKey (k : Key) | IdOther.

Record RpcError := { err_code : Z; err_message : string }.

(** A parsed inbound object.  [msg_id = None]: no [id] property;
    [msg_error = None]: [error] absent or falsy; [msg_result = None]:
    [result] is undefined. *)
Record Msg := {
  msg_id : option IdValue;
  msg_error : option RpcError;
  msg_result : option Payload
}.

(** What the message stream yields: any parsed JSON value. *)
Inductive Inbound :=
| NotObject            (* falsy, or [typeof msg !== 'object'] *)
| Obj (m : Msg).

(** The state of the promise a call returns to its waiter. *)
Inductive Settlement :=
| Unsettled
| Resolved (result : option Payload)
| Rejected (message : string).

(** The session object.  [promises] is the store of the promises created by
    [call], in creation order; a handler stored in [pending] is the closure
    over [resolve] and [reject] of one of them, represented by its index. *)
Record ClientSession := {
  transport : TransportState;
  idCounter : Z;
  pending : gmap Key nat;
  listening : bool;
  promises : list Settlement
}.

Definition new_session (t : TransportState) : ClientSession :=
  {| transport := t; idCounter := 1; pending := ∅;
     listening := false; promises := [] |}.

(** [n + 1] on numbers: exact below 2^53, and 2^53 + 1 rounds back to 2^53. *)
Definition MAX_SAFE : Z := 2 ^ 53.
Definition js_succ (n : Z) : Z := if (n <? MAX_SAFE)%Z then (n + 1)%Z else n.

(** [resolve] and [reject] settle a promise once; later calls do nothing. *)
Definition settle (p : nat) (v : Settlement) (store : list Settlement)
  : list Settlement :=
  match store !! p with
  | Some Unsettled => <[p := v]> store
  | _ => store
  end.

(** What the promise of a call becomes when its handler runs on [value]. *)
Definition outcome (value : Msg) : Settlement :=
  match msg_error value with
  | Some e => Rejected (JS.or_else (err_message e) "RPC Error")
  | None => Resolved (msg_result value)
  end.

(** The handler [call] stores, for the promise [p]. *)
Definition handler (p : nat) (value : Msg) (store : list Settlement)
  : list Settlement :=
  settle p (outcome value) store.

(** What [call] gives its caller: the promise [p], or the failure of
    [transport.send]. *)
Inductive CallOutcome :=
| Awaiting (id : Z) (p : nat)
| SendFailed (id : Z) (p : nat).

Definition call (method : string) (params : Payload) (s : ClientSession)
  : CallOutcome * ClientSession :=
  let id := idCounter s in
  let req := {| req_id := id; req_method := method; req_params := params |} in
  let p := length (promises s) in
  let '(ok, t) := send (transport s) req in
  (if ok then Awaiting id p else SendFailed id p,
   {| transport := t;
      idCounter := js_succ id;
      pending := <[inl id := p]> (pending s);
      listening := listening s;
      promises := promises s ++ [Unsettled] |}).

Definition ensureListener (s : ClientSession) : ClientSession :=
  if listening s then s
  else {| transport := transport s; idCounter := idCounter s;
          pending := pending s; listening := true;
          promises := promises s |}.

Definition pending_get (v : IdValue) (m : gmap Key nat) : option nat :=
  match v with
  | IdKey k => m !! k
  | IdOther => None
  end.

Definition pending_delete (v : IdValue) (m : gmap Key nat) : gmap Key nat :=
  match v with
  | IdKey k => delete k m
  | IdOther => m
  end.

(** The body of the listener's loop, for one inbound message. *)
Definition deliver (msg : Inbound) (s : ClientSession) : ClientSession :=
  match msg with
  | NotObject => s
  | Obj m =>
      match msg_id m with
      | None => s
      | Some v =>
          match pending_get v (pending s) with
          | Some h =>
              {| transport := transport s; idCounter := idCounter s;
                 pending := pending_delete v (pending s);
                 listening := listening s;
                 promises := handler h m (promises s) |}
          | None => s
          end
      end
  end.

(** An inbound message is consumed only if the listener was started. *)
Definition on_message (msg : Inbound) (s : ClientSession) : ClientSession :=
  if listening s then deliver msg s else s.

Definition initialize (empty : Payload) (s : ClientSession) : ClientSession :=
  snd (call "initialize" empty (ensureListener s)).

(** [listTools] is [call] with the method [list_tools]; [callTool] is, in the
    same way, [call] with the method [call_tool] and the name and arguments
    of the tool as its parameters. *)
Definition listTools (empty : Payload) (s : ClientSession) :=
  call "list_tools" empty s.

Definition close (s : ClientSession) : ClientSession :=
  {| transport := close_transport (transport s); idCounter := idCounter s;
     pending := pending s; listening := listening s;
     promises := promises s |}.

(** What can happen to a session, in any interleaving: a caller starts a
    call, the stream yields a message, or the session is closed. *)
Inductive Event :=
| DoCall (method : string) (params : Payload)
| Recv (msg : Inbound)
| DoClose.

Definition step (s : ClientSession) (e : Event) : ClientSession :=
  match e with
  | DoCall m p => snd (call m p s)
  | Recv msg => on_message msg s
  | DoClose => close s
  end.

Definition run (es : list Event) (s : ClientSession) : ClientSession :=
  fold_left step es s.

(** The ids the calls of [es] are given, in the order of the calls. *)
Fixpoint call_ids (es : list Event) (s : ClientSession) : list Z :=
  match es with
  | [] => []
  | DoCall m p :: es' => idCounter s :: call_ids es' (step s (DoCall m p))
  | e :: es' => call_ids es' (step s e)
  end.

Definition is_call (e : Event) : bool :=
  match e with DoCall _ _ => true | _ => false end.

Fixpoint count_calls (es : list Event) : nat :=
  match es with
  | [] => 0
  | e :: es' => (if is_call e then 1 else 0) + count_calls es'
  end.

Definition call_id (o : CallOutcome) : Z :=
  match o with Awaiting id _ | SendFailed id _ => id end.

Definition call_promise (o : CallOutcome) : nat :=
  match o with Awaiting _ p | SendFailed _ p => p end.

Definition carries_id (id : Z) (e : Event) : bool :=
  match e with
  | Recv (Obj m) =>
      match msg_id m with
      | Some (IdKey (inl n)) => (n =? id)%Z
      | _ => false
      end
  | _ => false
  end.

(** The first message of the stream that carries [id]. *)
Fixpoint first_response (id : Z) (es : list Event) : option Msg :=
  match es with
  | [] => None
  | e :: es' =>
      match e with
      | Recv (Obj m) => if carries_id id e then Some m else first_response id es'
      | _ => first_response id es'
      end
  end.

Definition outcome_of (r : option Msg) : Settlement :=
  match r with
  | Some m => outcome m
  | None => Unsettled
  end.

(** Every stored handler settles a promise of the store. *)
Definition handlers_in_store (s : ClientSession) : Prop :=
  forall k p, pending s !! k = Some p -> p < length (promises s).

End WithTransport.

(** *** A fake transport, for concrete runs

    It records what was sent and whether it was closed; [send] succeeds. *)

Record FakeState := { sent : list (JsonRpcRequest string); closed : bool }.

Definition fake_send (t : FakeState) (r : JsonRpcRequest string)
  : bool * FakeState :=
  (true, {| sent := sent t ++ [r]; closed := closed t |}).

Definition fake_close (t : FakeState) : FakeState :=
  {| sent := sent t; closed := true |}.

Definition FakeTransport : Transport :=
  {| Payload := string; TransportState := FakeState;
     send := fake_send; close_transport := fake_close |}.

Definition fake_session : @ClientSession FakeTransport :=
  @initialize FakeTransport "{}"
    (@new_session FakeTransport {| sent := []; closed := false |}).

Definition response (id : Z) (result : string) : @Inbound FakeTransport :=
  @Obj FakeTransport
    (@Build_Msg FakeTransport (Some (IdKey (inl id))) None (Some result)).

Definition error_response (id : Z) (message : string)
  : @Inbound FakeTransport :=
  @Obj FakeTransport
    (@Build_Msg FakeTransport (Some (IdKey (inl id)))
       (Some {| err_code := 1; err_message := message |}) None).

Definition notification : @Inbound FakeTransport :=
  @Obj FakeTransport (@Build_Msg FakeTransport None None (Some "ping")).

(** Two calls; their responses come in the opposite order, between a
    notification and a response to nobody. *)
Definition crossed_run : list (@Event FakeTransport) :=
  [ @DoCall FakeTransport "list_tools" "{}";
    @DoCall FakeTransport "call_tool" "{x}";
    Recv notification; Recv (error_response 3 "boom"); Recv (response 7 "?");
    Recv (response 2 "tools"); Recv (response 3 "late") ].

(** One call is outstanding when the session is closed: it stays so. *)
Definition closed_with_call_outstanding : @ClientSession FakeTransport :=
  close (snd (@call FakeTransport "call_tool" "{x}" fake_session)).

Section Keys.

Context `{Transport}.

(** Every key of the pending map is a number. *)
Definition numeric_keys (s : ClientSession) : Prop :=
  forall k p, pending s !! k = Some p -> exists id : Z, k = inl id.

End Keys.

End Session.

(* ===================================================================== *)
(** ** streamableHttpClient: NDJSON over HTTP with endpoint probing *)
(* ===================================================================== *)

Module Transport.

Local Open Scope list_scope.

Record Response := {
  status : Z;
  body : option (list string)   (* [None]: [res.body] is null; else the chunks *)
}.

(** [res.ok] *)
Definition ok (r : Response) : bool :=
  (200 <=? status r)%Z && (status r <=? 299)%Z.

(** What [await fetch(..)] gives: a response, or it throws. *)
Inductive FetchResult := Fetched (r : Response) | FetchThrew.

Inductive HandshakeOption :=
| HandshakeDefault                (* [handshakePath] left undefined *)
| HandshakeSkip                   (* [handshakePath: null] *)
| HandshakePath (path : string).

Record CreateOptions := {
  baseUrl : string;
  opt_readPath : string;          (* the empty string when not given *)
  opt_writePath : string;
  handshakePath : HandshakeOption
}.

Record Endpoints := { read : string; write : string }.

Definition probeCandidates : list Endpoints :=
  [ {| read := "/read"; write := "/write" |};
    {| read := "/stream/read"; write := "/stream/write" |};
    {| read := "/events"; write := "/send" |} ].

(** What the message stream does: it throws, or it yields the messages of a
    body and ends. *)
Inductive StreamOutcome {J : Type} :=
| FetchRejected                   (* the first [fetch] threw *)
| StreamThrew (message : string)  (* [throw new Error(message)] *)
| Yielded (msgs : list J).
Arguments StreamOutcome : clear implicits.

(** What the client needs of its platform.  [NetState] is the state of the
    network and of the server behind it; [fetch] takes the method, the URL
    and the body; [JSON_parse] has [None] where [JSON.parse] throws. *)
Class Network := {
  NetState : Type;
  Json : Type;
  fetch : NetState -> string -> string -> option string
          -> FetchResult * NetState;
  JSON_parse : string -> option Json;
  JSON_stringify : Json -> string
}.

Section WithNetwork.

Context `{Network}.

(** The variables the returned closures share. *)
Record Client := {
  base : string;
  readPath : string;
  writePath : string;
  readUrl : string;
  writeUrl : string;
  net : NetState
}.

Definition with_net (c : Client) (n : NetState) : Client :=
  {| base := base c; readPath := readPath c; writePath := writePath c;
     readUrl := readUrl c; writeUrl := writeUrl c; net := n |}.

Definition streamableHttpClient (opts : CreateOptions) (n : NetState)
  : Client :=
  let base := JS.strip_trailing_slash (baseUrl opts) in
  let readPath := JS.or_else (opt_readPath opts) "/read" in
  let writePath := JS.or_else (opt_writePath opts) "/write" in
  let handshakeUrl :=
    match handshakePath opts with
    | HandshakeSkip => None
    | HandshakeDefault => Some (base ++ "/client")%string
    | HandshakePath h => Some (base ++ JS.or_else h "/client")%string
    end in
  let n :=
    match handshakeUrl with
    | Some u => if JS.truthy u then snd (fetch n "POST" u None) else n
    | None => n
    end in
  {| base := base; readPath := readPath; writePath := writePath;
     readUrl := (base ++ readPath)%string;
     writeUrl := (base ++ writePath)%string; net := n |}.

(** The loop over [probeCandidates]: the first candidate whose read endpoint
    answers with [ok] is adopted; a fetch that throws is skipped. *)
Fixpoint probe (cands : list Endpoints) (c : Client) : option Response * Client :=
  match cands with
  | [] => (None, c)
  | cand :: rest =>
      let testRead := (base c ++ read cand)%string in
      match fetch (net c) "GET" testRead None with
      | (Fetched pr, n) =>
          if ok pr then
            (Some pr,
             {| base := base c; readPath := read cand; writePath := write cand;
                readUrl := (base c ++ read cand)%string;
                writeUrl := (base c ++ write cand)%string; net := n |})
          else probe rest (with_net c n)
      | (FetchThrew, n) => probe rest (with_net c n)
      end
  end.

(** The complete lines of a buffer (without their line feeds) and what is
    left after the last line feed. *)
Fixpoint drain (buffer : string) : list string * string :=
  match buffer with
  | EmptyString => ([], EmptyString)
  | String ch rest =>
      let '(lines, tail) := drain rest in
      if Ascii.eqb ch (ascii_of_nat 10) then (EmptyString :: lines, tail)
      else match lines with
           | [] => ([], String ch tail)
           | l :: ls => (String ch l :: ls, tail)
           end
  end.

(** One line: trimmed, skipped when empty or malformed. *)
Definition parse_line (line : string) : list Json :=
  let line := JS.trim line in
  if JS.truthy line then
    match JSON_parse line with Some j => [j] | None => [] end
  else [].

Fixpoint read_chunks (chunks : list string) (buffer : string)
  : list Json :=
  match chunks with
  | [] => parse_line buffer
  | value :: rest =>
      let '(lines, buffer) := drain (buffer ++ value)%string in
      flat_map parse_line lines ++ read_chunks rest buffer
  end.

(** The async iterator of [messages]: the first fetch, the probing when it
    answers 404, and the reading of the body that is kept.  [None]: the
    first fetch itself threw. *)
Definition open_stream (c : Client) : option Response * Client :=
  match fetch (net c) "GET" (readUrl c) None with
  | (FetchThrew, n) => (None, with_net c n)
  | (Fetched res, n) =>
      let c := with_net c n in
      if (status res =? 404)%Z then
        match probe probeCandidates c with
        | (Some pr, c') => (Some pr, c')
        | (None, c') => (Some res, c')
        end
      else (Some res, c)
  end.

(** What streaming the body of [res] gives. *)
Definition stream_body (res : Response) : StreamOutcome Json :=
  match body res with
  | None => StreamThrew "No response body for streaming"
  | Some chunks => Yielded (read_chunks chunks EmptyString)
  end.

Definition messages (c : Client) : StreamOutcome Json * Client :=
  match open_stream c with
  | (None, c') => (FetchRejected, c')
  | (Some res, c') => (stream_body res, c')
  end.

Definition send (msg : Json) (c : Client) : FetchResult * Client :=
  let '(r, n) := fetch (net c) "POST" (writeUrl c) (Some (JSON_stringify msg)) in
  (r, with_net c n).

Definition close (c : Client) : Client := c.

(** *** Probing *)

(** The read endpoint [url] gives [r], whenever it is asked. *)
Definition answers (url : string) (r : FetchResult) : Prop :=
  forall n, fst (fetch n "GET" url None) = r.

(** The read endpoint [url] never answers with [ok]. *)
Definition never_ok (url : string) : Prop :=
  forall n, match fst (fetch n "GET" url None) with
            | Fetched r => ok r = false
            | FetchThrew => True
            end.

Definition same_endpoints (c c' : Client) : Prop :=
  base c' = base c /\ readPath c' = readPath c /\ writePath c' = writePath c
  /\ readUrl c' = readUrl c /\ writeUrl c' = writeUrl c.

End WithNetwork.

(** *** Two servers, for concrete runs

    Messages are kept as their text; a line parses when it is an object
    literal.  The network has no state of its own. *)

Definition toy_parse (line : string) : option string :=
  if JS.startsWith line "{" && JS.endsWith line "}" then Some line else None.

Definition not_found : Response :=
  {| status := 404; body := Some ["Not Found"] |}.

Definition events_stream : Response :=
  {| status := 200;
     body := Some ["{a}" ++ JS.LF ++ "  " ++ JS.LF ++ "{b"; "}" ++ JS.LF ++ "oops" ++ JS.LF ++ "{c}"]%string |}.

(** A server that serves its stream at [/events] only. *)
Definition events_server (_ : unit) (method url : string) (_ : option string)
  : FetchResult * unit :=
  if String.eqb url "http://h/events" then (Fetched events_stream, tt)
  else if String.eqb url "http://h/stream/read" then (FetchThrew, tt)
  else (Fetched not_found, tt).

(** A server that has none of the endpoints. *)
Definition no_server (_ : unit) (method url : string) (_ : option string)
  : FetchResult * unit :=
  (Fetched not_found, tt).

Definition EventsServer : Network :=
  {| NetState := unit; Json := string; fetch := events_server;
     JSON_parse := toy_parse; JSON_stringify := fun j => j |}.

Definition NoServer : Network :=
  {| NetState := unit; Json := string; fetch := no_server;
     JSON_parse := toy_parse; JSON_stringify := fun j => j |}.

Definition default_options : CreateOptions :=
  {| baseUrl := "http://h/"; opt_readPath := ""; opt_writePath := "";
     handshakePath := HandshakeDefault |}.

(** *** The client in use *)

Section InUse.

Context `{Network}.

(** What the holder of the transport does with it. *)
Inductive Op :=
| OpMessages              (* iterates [messages] to its end *)
| OpSend (msg : Json)
| OpClose.

Definition apply_op (c : Client) (op : Op) : Client :=
  match op with
  | OpMessages => snd (messages c)
  | OpSend msg => snd (send msg c)
  | OpClose => close c
  end.

Definition after (ops : list Op) (c : Client) : Client :=
  fold_left apply_op ops c.

(** The network after the URLs were requested with [GET], in order. *)
Definition fetch_all (urls : list string) (n : NetState) : NetState :=
  fold_left (fun n url => snd (fetch n "GET" url None)) urls n.

(** A text without line feed. *)
Definition one_line (s : string) : bool :=
  JS.all_chars (fun c => negb (Ascii.eqb c (ascii_of_nat 10))) s.

(** The text [send] makes of [msg] is one line that is not blank, and
    parsing it gives [msg] back. *)
Definition reads_back (msg : Json) : Prop :=
  one_line (JSON_stringify msg) = true
  /\ JS.truthy (JS.trim (JSON_stringify msg)) = true
  /\ JSON_parse (JS.trim (JSON_stringify msg)) = Some msg.

(** The messages, one on each line. *)
Definition ndjson (msgs : list Json) : string :=
  String.concat "" (map (fun msg => JSON_stringify msg ++ JS.LF)%string msgs).

End InUse.

End Transport.

(* ===================================================================== *)
(** ** src/cli.ts: model fallback and the orchestration loop *)
(* ===================================================================== *)

Module Cli.

Local Open Scope list_scope.

Definition DEFAULT_MODEL_CANDIDATES : list string :=
  [ "claude-3-5-sonnet-20241022";
    "claude-sonnet-4-20250514";
    "claude-3-5-sonnet-latest" ]%string.

(** What is thrown: an [Error] with its message, or an error of the model
    backend, which carries [error.type] besides its message. *)
Inductive Thrown :=
| JsError (message : string)
| ApiError (type : string) (message : string).

(** [err?.error?.type === 'not_found_error'] *)
Definition is_not_found (err : Thrown) : bool :=
  match err with
  | ApiError type _ => String.eqb type "not_found_error"
  | JsError _ => false
  end.

(** [e?.message || e] inside a template literal. *)
Definition error_text (e : Thrown) : string :=
  match e with
  | JsError message => JS.or_else message "Error"
  | ApiError _ message => JS.or_else message "Error"
  end.

(** A content block of a model response. *)
Inductive Block {V : Type} :=
| Text (text : string)
| ToolUse (name : string) (input : V)
| OtherBlock.
Arguments Block : clear implicits.

(** A turn of the conversation. *)
Record Turn := { role : string; content : string }.

(** What [anthropic.messages.create] gives: a response with its content
    blocks, or it throws. *)
Inductive CreateResult {V : Type} :=
| Created (content : list (Block V))
| CreateThrew (err : Thrown).
Arguments CreateResult : clear implicits.

(** What [client.callTool] gives: a result with its [content], or it
    throws. *)
Inductive ToolResult {V : Type} :=
| ToolReturned (content : V)
| ToolThrew (err : Thrown).
Arguments ToolResult : clear implicits.

(** The external parties.  [V] is the type of the values that come from
    them (tool arguments, the content of tool results); the two states are
    those of the model backend and of the tool server.  [create] is
    [anthropic.messages.create] with the model, [max_tokens] and the
    messages (the tool catalogue it is also given is fixed when the session
    starts); [call_tool] is [client.callTool]. *)
Class Platform := {
  V : Type;
  JSON_stringify : V -> string;
  is_nullish : V -> bool;               (* [v == null] *)
  as_string : V -> option string;       (* [typeof v === 'string'] *)
  BackendState : Type;
  ServerState : Type;
  create : BackendState -> string -> Z -> list Turn
           -> CreateResult V * BackendState;
  call_tool : ServerState -> string -> V -> ToolResult V * ServerState
}.

(** The calls made to the external parties, in order.  The log is kept for
    the statements below; the program does not read it. *)
Inductive Event :=
| Attempt (model : string)      (* one [messages.create] *)
| ToolCall (name : string).     (* one [callTool] *)

Definition is_attempt (e : Event) : bool :=
  match e with Attempt _ => true | ToolCall _ => false end.

Definition attempted (log : list Event) : list string :=
  flat_map (fun e => match e with Attempt m => [m] | ToolCall _ => [] end) log.

(** *** [Set<string>], in insertion order *)

Definition set_has (x : string) (s : list string) : bool :=
  existsb (String.eqb x) s.

Definition set_add (x : string) (s : list string) : list string :=
  if set_has x s then s else s ++ [x].

(** *** [arr.indexOf], [arr.filter] with the index, [arr.find] *)

Fixpoint indexOf (x : string) (arr : list string) : option nat :=
  match arr with
  | [] => None
  | y :: rest =>
      if String.eqb y x then Some 0
      else match indexOf x rest with Some i => Some (S i) | None => None end
  end.

Fixpoint filter_indexed (f : string -> nat -> bool) (i : nat) (arr : list string)
  : list string :=
  match arr with
  | [] => []
  | m :: rest =>
      if f m i then m :: filter_indexed f (S i) rest
      else filter_indexed f (S i) rest
  end.

(** [[model, ...DEFAULT_MODEL_CANDIDATES].filter((m, i, arr) =>
    arr.indexOf(m) === i)] *)
Definition rotation (model : string) : list string :=
  let arr := model :: DEFAULT_MODEL_CANDIDATES in
  filter_indexed
    (fun m i => match indexOf m arr with Some j => Nat.eqb j i | None => false end)
    0 arr.

Definition unavailable_message (failed : list string) : string :=
  ("All candidate models unavailable: " ++ JS.join ", " failed)%string.

(** The candidates a call of [runAnthropic] still has to go through: the
    model it is asked for, then the built-in ones that are not exhausted. *)
Definition candidates (model : string) (failed : list string) : list string :=
  model ::
  List.filter (fun m => negb (set_has m (set_add model failed)))
    DEFAULT_MODEL_CANDIDATES.

(** How a computation ends: with a value, with an exception, or because
    the fuel of [runAnthropic] ran out. *)
Inductive Outcome (A : Type) :=
| Ok (a : A)
| Throw (e : Thrown)
| OutOfFuel.
Arguments Ok {A} a.
Arguments Throw {A} e.
Arguments OutOfFuel {A}.

Section WithPlatform.

Context `{Platform}.

(** The state of one run of [interactive]: the two external parties, the
    set [failedModels], and the log. *)
Record World := {
  backend : BackendState;
  server : ServerState;
  failedModels : list string;
  log : list Event
}.

Definition initial_world (b : BackendState) (s : ServerState) : World :=
  {| backend := b; server := s; failedModels := []; log := [] |}.

(** *** Computations: state, exceptions, and the fuel of [runAnthropic] *)

Definition M (A : Type) : Type := World -> Outcome A * World.

Definition ret {A} (a : A) : M A := fun w => (Ok a, w).

Definition bind {A C} (m : M A) (k : A -> M C) : M C :=
  fun w =>
    match m w with
    | (Ok a, w') => k a w'
    | (Throw e, w') => (Throw e, w')
    | (OutOfFuel, w') => (OutOfFuel, w')
    end.

Definition throw {A} (e : Thrown) : M A := fun w => (Throw e, w).

(** [try { body } catch (e) { handler }] *)
Definition try_catch {A} (body : M A) (handler : Thrown -> M A) : M A :=
  fun w =>
    match body w with
    | (Throw e, w') => handler e w'
    | r => r
    end.

Notation "x <- c1 ;; c2" := (bind c1 (fun x => c2))
  (at level 100, c1 at next level, right associativity).

(** [await anthropic.messages.create({ model, max_tokens, messages, tools })] *)
Definition messages_create (model : string) (maxTokens : Z) (messages : list Turn)
  : M (list (Block V)) :=
  fun w =>
    let '(r, b) := create (backend w) model maxTokens messages in
    let w' := {| backend := b; server := server w;
                 failedModels := failedModels w;
                 log := log w ++ [Attempt model] |} in
    match r with
    | Created content => (Ok content, w')
    | CreateThrew err => (Throw err, w')
    end.

(** [await client.callTool({ name, arguments })], giving [result.content] *)
Definition callTool (name : string) (arguments : V) : M V :=
  fun w =>
    let '(r, s) := call_tool (server w) name arguments in
    let w' := {| backend := backend w; server := s;
                 failedModels := failedModels w;
                 log := log w ++ [ToolCall name] |} in
    match r with
    | ToolReturned content => (Ok content, w')
    | ToolThrew err => (Throw err, w')
    end.

(** [failedModels.add(model)] *)
Definition failedModels_add (model : string) : M unit :=
  fun w =>
    (Ok tt, {| backend := backend w; server := server w;
               failedModels := set_add model (failedModels w);
               log := log w |}).

Definition get_failedModels : M (list string) :=
  fun w => (Ok (failedModels w), w).

(** [runAnthropic] calls itself; [fuel] bounds the depth of the calls. *)
Fixpoint runAnthropic_fuel (fuel : nat) (messages : list Turn) (model : string)
  (maxTokens : Z) : M (list (Block V)) :=
  match fuel with
  | 0 => fun w => (OutOfFuel, w)
  | S fuel' =>
      try_catch (messages_create model maxTokens messages)
        (fun err =>
           if is_not_found err then
             _ <- failedModels_add model ;;
             failed <- get_failedModels ;;
             match find (fun m => negb (set_has m failed)) (rotation model) with
             | Some next =>
                 if JS.truthy next then
                   runAnthropic_fuel fuel' messages next maxTokens
                 else throw (JsError (unavailable_message failed))
             | None => throw (JsError (unavailable_message failed))
             end
           else throw err)
  end.

(** One attempt for the model asked for and one for each built-in candidate
    is all it ever takes (see [runAnthropic_total]). *)
Definition runAnthropic (messages : list Turn) (model : string) (maxTokens : Z)
  : M (list (Block V)) :=
  runAnthropic_fuel (1 + length DEFAULT_MODEL_CANDIDATES) messages model maxTokens.

(** *** [processQuery] *)

(** What [processQuery] reads of the options and of the environment: the
    [--model] flag and [ANTHROPIC_MODEL], each empty when not set, and the
    token limit after the flag and the environment have been looked at. *)
Record Options := {
  opt_model : string;
  env_model : string;
  maxTokens : Z
}.

(** [opts.model || process.env.ANTHROPIC_MODEL || DEFAULT_MODEL_CANDIDATES[0]] *)
Definition chosenModel (opts : Options) : string :=
  JS.or_else (opt_model opts)
    (JS.or_else (env_model opts) (hd EmptyString DEFAULT_MODEL_CANDIDATES)).

(** The two arrays of one query. *)
Record Locals := {
  messages : list Turn;
  finalParts : list string
}.

Definition user (text : string) : Turn := {| role := "user"; content := text |}.

(** [result?.content != null ? (typeof result.content === 'string' ?
    result.content : JSON.stringify(result.content)) : ''] *)
Definition fullText (content : V) : string :=
  if is_nullish content then EmptyString
  else match as_string content with
       | Some text => text
       | None => JSON_stringify content
       end.

(** [fullText.replace(/\s+/g, ' ').trim()] *)
Definition singleLine (text : string) : string :=
  JS.trim (JS.collapse_spaces text).

Definition preview (singleLine : string) : string :=
  if (50 <? String.length singleLine)%nat
  then (JS.slice 0 50 singleLine ++ "...")%string
  else singleLine.

(** The body of the inner loop for a [tool_use] block. *)
Definition use_tool (toolName : string) (toolArgs : V) (q : Locals) : M Locals :=
  let q :=
    {| messages := messages q;
       finalParts := finalParts q ++
         [("[Calling tool " ++ toolName ++ " args=" ++ JSON_stringify toolArgs ++ "]")%string] |} in
  try_catch
    (content <- callTool toolName toolArgs ;;
     ret {| messages := messages q ++ [user (JSON_stringify content)];
            finalParts := finalParts q ++
              [("[Tool " ++ toolName ++ " result: "
                 ++ preview (singleLine (fullText content)) ++ "]")%string] |})
    (fun toolErr =>
       ret {| messages := messages q ++
                [user ("Tool " ++ toolName ++ " error: " ++ error_text toolErr)%string];
              finalParts := finalParts q ++
                [("[Tool " ++ toolName ++ " failed: " ++ error_text toolErr ++ "]")%string;
                 ("[Tool " ++ toolName ++ " error: " ++ error_text toolErr ++ "]")%string] |}).

(** [for (const c of response.content) { ... }], with the flag [usedTool]. *)
Fixpoint process_content (blocks : list (Block V)) (usedTool : bool) (q : Locals)
  : M (bool * Locals) :=
  match blocks with
  | [] => ret (usedTool, q)
  | Text text :: rest =>
      process_content rest usedTool
        {| messages := messages q; finalParts := finalParts q ++ [text] |}
  | ToolUse name input :: rest =>
      q' <- use_tool name input q ;;
      process_content rest true q'
  | OtherBlock :: rest => process_content rest usedTool q
  end.

(** [for (let safety = 0; safety < 5; safety++) { ... }]: [rounds] is what is
    left of the five. *)
Fixpoint safety_loop (opts : Options) (rounds : nat) (response : list (Block V))
  (q : Locals) : M Locals :=
  match rounds with
  | 0 => ret q
  | S rounds' =>
      r <- process_content response false q ;;
      let '(usedTool, q) := r in
      if negb usedTool then ret q
      else
        response <- runAnthropic (messages q) (chosenModel opts) (maxTokens opts) ;;
        safety_loop opts rounds' response q
  end.

Definition processQuery (opts : Options) (query : string) : M string :=
  let q := {| messages := [user query]; finalParts := [] |} in
  response <- runAnthropic (messages q) (chosenModel opts) (maxTokens opts) ;;
  q <- safety_loop opts 5 response q ;;
  ret (JS.join JS.LF (finalParts q)).

(** One turn of the console loop for a query that is neither empty nor
    [exit], after the tools were refreshed: what is printed. *)
Definition answer (opts : Options) (q : string) : M string :=
  try_catch
    (resp <- processQuery opts q ;; ret (JS.LF ++ resp)%string)
    (fun e => ret ("Error processing query: " ++ error_text e)%string).

(** The queries of a session, one after the other. *)
Fixpoint session (opts : Options) (queries : list string) : M (list string) :=
  match queries with
  | [] => ret []
  | q :: rest =>
      out <- answer opts q ;;
      outs <- session opts rest ;;
      ret (out :: outs)
  end.

(** *** The fallback as a loop over the candidates

    [try_in_order] goes through a list of models, exhausting each one the
    backend does not find; [runAnthropic] computes the same from the
    candidates of its call ([runAnthropic_try_in_order]). *)

Fixpoint try_in_order (messages : list Turn) (maxTokens : Z)
  (cands : list string) : M (list (Block V)) :=
  match cands with
  | [] =>
      failed <- get_failedModels ;;
      throw (JsError (unavailable_message failed))
  | model :: rest =>
      try_catch (messages_create model maxTokens messages)
        (fun err =>
           if is_not_found err then
             _ <- failedModels_add model ;;
             try_in_order messages maxTokens rest
           else throw err)
  end.

(** *** What the backend does with a model *)

(** The backend rejects [model] as not found, whenever it is asked. *)
Definition rejects (model : string) (k : Z) (msgs : list Turn) : Prop :=
  forall b, exists err,
    fst (create b model k msgs) = CreateThrew err /\ is_not_found err = true.

(** The backend answers [content] for [model], whenever it is asked. *)
Definition accepts (model : string) (k : Z) (msgs : list Turn)
  (content : list (Block V)) : Prop :=
  forall b, fst (create b model k msgs) = Created content.

(** [failedModels] after the models [ms] were added, in this order. *)
Definition exhaust (ms : list string) (failed : list string) : list string :=
  fold_left (fun s m => set_add m s) ms failed.

(** *** [failedModels] only grows *)

Definition grows {A} (m : M A) : Prop :=
  forall w, incl (failedModels w) (failedModels (snd (m w))).

(** *** What the session keeps true of [failedModels] and of the log

    With [model] the chosen model of the session: every exhausted model was
    attempted, and only the candidates are ever attempted. *)

Definition consistent (model : string) (w : World) : Prop :=
  incl (failedModels w) (attempted (log w))
  /\ incl (attempted (log w)) (rotation model).

Definition keeps (I : World -> Prop) {A} (m : M A) : Prop :=
  forall w, I w -> I (snd (m w)).

(** *** The orchestration loop *)

Definition is_tool_use (c : Block V) : bool :=
  match c with ToolUse _ _ => true | _ => false end.

(** The texts of the text blocks, in order. *)
Definition texts (blocks : list (Block V)) : list string :=
  flat_map (fun c => match c with Text text => [text] | _ => [] end) blocks.

(** What [use_tool] leaves when the tool call throws [err]. *)
Definition after_tool_failure (toolName : string) (toolArgs : V)
  (err : Thrown) (q : Locals) : Locals :=
  {| messages := messages q ++
       [user ("Tool " ++ toolName ++ " error: " ++ error_text err)%string];
     finalParts := finalParts q ++
       [("[Calling tool " ++ toolName ++ " args=" ++ JSON_stringify toolArgs ++ "]")%string;
        ("[Tool " ++ toolName ++ " failed: " ++ error_text err ++ "]")%string;
        ("[Tool " ++ toolName ++ " error: " ++ error_text err ++ "]")%string] |}.

(** What [use_tool] leaves when the tool call returns [content]. *)
Definition after_tool_result (toolName : string) (toolArgs : V)
  (content : V) (q : Locals) : Locals :=
  {| messages := messages q ++ [user (JSON_stringify content)];
     finalParts := finalParts q ++
       [("[Calling tool " ++ toolName ++ " args=" ++ JSON_stringify toolArgs ++ "]")%string;
        ("[Tool " ++ toolName ++ " result: "
           ++ preview (singleLine (fullText content)) ++ "]")%string] |}.

Definition after_tool_call (w : World) (toolName : string) (s : ServerState)
  : World :=
  {| backend := backend w; server := s; failedModels := failedModels w;
     log := log w ++ [ToolCall toolName] |}.

(** One full round: the blocks of the response are processed, tools are
    called, and the next response is generated. *)
Definition full_round (opts : Options)
  (st st' : list (Block V) * Locals * World) : Prop :=
  let '(response, q, w) := st in
  let '(response', q', w') := st' in
  exists w1,
    process_content response false q w = (Ok (true, q'), w1)
    /\ runAnthropic (messages q') (chosenModel opts) (maxTokens opts) w1
       = (Ok response', w').

Fixpoint rounds (opts : Options) (n : nat)
  (st st' : list (Block V) * Locals * World) : Prop :=
  match n with
  | 0 => st = st'
  | S n' => exists mid, full_round opts st mid /\ rounds opts n' mid st'
  end.

(** The backend always answers, with a [tool_use] block in the answer. *)
Definition always_asks_for_a_tool : Prop :=
  forall b model k msgs, exists content,
    fst (create b model k msgs) = Created content
    /\ existsb is_tool_use content = true.

(** The backend always answers. *)
Definition always_answers : Prop :=
  forall b model k msgs, exists content,
    fst (create b model k msgs) = Created content.

End WithPlatform.

(** *** Scripted parties, for concrete runs

    A value is a string or an object given by its JSON text; the backend and
    the server have no state: they answer by a fixed rule. *)

Inductive Val :=
| Undefined
| Str (text : string)
| Json (text : string).

Definition quote : string := String (ascii_of_nat 34) EmptyString.

Definition scripted
  (backend_rule : string -> list Turn -> CreateResult Val)
  (tool_rule : string -> Val -> ToolResult Val) : Platform :=
  {| V := Val;
     JSON_stringify := fun v =>
       match v with
       | Undefined => "undefined"
       | Str text => quote ++ text ++ quote
       | Json text => text
       end%string;
     is_nullish := fun v => match v with Undefined => true | _ => false end;
     as_string := fun v => match v with Str text => Some text | _ => None end;
     BackendState := unit;
     ServerState := unit;
     create := fun _ model _ msgs => (backend_rule model msgs, tt);
     call_tool := fun _ name args => (tool_rule name args, tt) |}.

Definition not_found_error : Thrown :=
  ApiError "not_found_error" "model not found".

Definition no_options : Options :=
  {| opt_model := ""; env_model := ""; maxTokens := 1000 |}.

Definition tables_tool (name : string) (args : Val) : ToolResult Val :=
  if String.eqb name "get_tables" then ToolReturned (Json "[{}]")
  else ToolThrew (JsError "unknown tool").

(** The backend finds the third built-in model only; it asks for a tool in
    the first round and answers in the second. *)
Definition third_only (model : string) (msgs : list Turn) : CreateResult Val :=
  if String.eqb model "claude-3-5-sonnet-latest" then
    match msgs with
    | [_] => Created [Text "let me look"; ToolUse "get_tables" (Json "{}")]
    | _ => Created [Text "two tables"]
    end
  else CreateThrew not_found_error.

(** The backend finds no model. *)
Definition none_found (model : string) (msgs : list Turn) : CreateResult Val :=
  CreateThrew not_found_error.

(** The backend always asks for a tool. *)
Definition always_tool (model : string) (msgs : list Turn) : CreateResult Val :=
  Created [Text "hm"; ToolUse "nope" Undefined].

Definition P_third_only : Platform := scripted third_only tables_tool.
Definition P_none_found : Platform := scripted none_found tables_tool.
Definition P_always_tool : Platform := scripted always_tool tables_tool.

Definition start (P : Platform) (b : @BackendState P) (s : @ServerState P)
  : @World P := @initial_world P b s.

(** The second query of a session with a backend that finds no model. *)
Definition after_first_failure : @World P_none_found :=
  snd (@session P_none_found no_options ["q"%string] (start P_none_found tt tt)).

(** A tool whose result is longer than fifty characters once flattened. *)
Definition long_tool (name : string) (args : Val) : ToolResult Val :=
  ToolReturned
    (Str "  Sales,   Customer, Product, Date, Territory,
          Reseller and SalesOrder ").

Definition P_long_tool : Platform := scripted always_tool long_tool.

(** *** The console loop *)

Section Console.

Context `{Platform}.

(** [client.listTools()], which [refreshToolsIfChanged] awaits: it goes to
    the tool server and may throw ([Some]).  What it returns is kept in
    [toolsResp], which nothing reads afterwards. *)
Variable list_tools : ServerState -> option Thrown * ServerState.

Definition refreshToolsIfChanged : M unit :=
  fun w =>
    let '(r, s) := list_tools (server w) in
    let w' := {| backend := backend w; server := s;
                 failedModels := failedModels w; log := log w |} in
    match r with
    | None => (Ok tt, w')
    | Some e => (Throw e, w')
    end.

(** The terminal: the world, and the texts the loop has printed so far (the
    answers and the error lines; what [--verbose] logs besides is left
    out). *)
Record Terminal := {
  world : World;
  printed : list string
}.

(** Where the loop stands when the lines typed so far are used up. *)
Inductive Ending :=
| Waiting              (* at [rl.question], for the next line *)
| Exited               (* after [break] *)
| Fatal (e : Thrown)   (* an exception left the loop *)
| NoFuel.

Definition ended {A} (r : Outcome A) : Ending :=
  match r with
  | Throw e => Fatal e
  | _ => NoFuel
  end.

(** [while (true) { ... }] of [interactive], on the lines typed in. *)
Fixpoint console (opts : Options) (lines : list string) (t : Terminal)
  : Ending * Terminal :=
  match lines with
  | [] => (Waiting, t)
  | line :: rest =>
      let q := JS.trim line in
      if String.eqb (JS.toLowerCase q) "exit" then (Exited, t)
      else if negb (JS.truthy q) then console opts rest t
      else
        match refreshToolsIfChanged (world t) with
        | (Ok _, w) =>
            match answer opts q w with
            | (Ok resp, w') =>
                console opts rest
                  {| world := w'; printed := printed t ++ [resp] |}
            | (r, w') => (ended r, {| world := w'; printed := printed t |})
            end
        | (r, w) => (ended r, {| world := w; printed := printed t |})
        end
  end.

End Console.

(** The queries among the lines typed in: the lines before the first
    [exit], trimmed, the blank ones left out. *)
Fixpoint queries (lines : list string) : list string :=
  match lines with
  | [] => []
  | line :: rest =>
      let q := JS.trim line in
      if String.eqb (JS.toLowerCase q) "exit" then []
      else if negb (JS.truthy q) then queries rest
      else q :: queries rest
  end.

(** A tool server whose tool list never fails. *)
Definition tools_listed (s : unit) : option Thrown * unit := (None, s).

(** The backend is overloaded: an error that is not [not_found_error]. *)
Definition overloaded_error : Thrown := ApiError "overloaded_error" "Overloaded".

Definition overloaded (model : string) (msgs : list Turn) : CreateResult Val :=
  CreateThrew overloaded_error.

(** The backend asks for a tool, and is overloaded from then on. *)
Definition fails_later (model : string) (msgs : list Turn) : CreateResult Val :=
  match msgs with
  | [_] => Created [Text "let me look"; ToolUse "get_tables" (Json "{}")]
  | _ => CreateThrew overloaded_error
  end.

Definition P_overloaded : Platform := scripted overloaded tables_tool.
Definition P_fails_later : Platform := scripted fails_later tables_tool.

(** A terminal on which nothing was printed yet. *)
Definition fresh_terminal (P : Platform) (b : @BackendState P)
  (s : @ServerState P) : @Terminal P :=
  @Build_Terminal P (start P b s) [].

End Cli.

(* ===================================================================== *)
(** ** An earlier src/cli.ts: fetchLatestAnthropicModel *)
(* ===================================================================== *)

Module LatestModel.

Local Open Scope list_scope.

(** An element of [data.data]. *)
Inductive Entry :=
| Nullish                    (* [null] or [undefined]: reading [m.id] throws *)
| Id (id : option string).   (* [m.id], [Some] when it is a string *)

(** What the request to [/v1/models] ends with. *)
Inductive Answer :=
| Rejected (message : string)  (* the request failed, or [JSON.parse] threw *)
| NoArray                      (* [!data || !Array.isArray(data.data)] *)
| Listed (entries : list Entry).

Inductive Result :=
| Latest (model : string)
| Failed (message : string)    (* [throw new Error(message)], or the rejection *)
| TypeError.                   (* thrown by [m.id] on a nullish element *)

Definition is_nullish (e : Entry) : bool :=
  match e with Nullish => true | Id _ => false end.

(** [data.data.map(m => m.id).filter(id => typeof id === 'string')] *)
Definition string_ids (entries : list Entry) : list string :=
  flat_map (fun e => match e with Id (Some id) => [id] | _ => [] end) entries.

(** [/(sonnet|opus|haiku)/i.test(m)].  The three words are made of ASCII
    letters, which among the code units 0..255 only an ASCII letter matches
    when case is ignored. *)
Definition family (m : string) : bool :=
  let m := JS.toLowerCase m in
  JS.includes m "sonnet" || JS.includes m "opus" || JS.includes m "haiku".

(** [arr.pop()] on a copy: the last element, if any. *)
Definition pop (arr : list string) : option string :=
  match rev arr with
  | [] => None
  | x :: _ => Some x
  end.

Definition fetchLatestAnthropicModel (apiKey : string) (answer : Answer)
  : Result :=
  if negb (JS.truthy apiKey) then Failed "ANTHROPIC_API_KEY not set."
  else
    match answer with
    | Rejected message => Failed message
    | NoArray => Failed "Unexpected /v1/models response shape"
    | Listed entries =>
        if existsb is_nullish entries then TypeError
        else
          let models := string_ids entries in
          match models with
          | [] => Failed "No models returned from Anthropic"
          | _ =>
              let prioritized := List.filter family models in
              let candidates :=
                match prioritized with [] => models | _ => prioritized end in
              match pop (JS.sort candidates) with
              | Some latest => Latest latest
              | None => Latest EmptyString   (* not reached: see [pop_sort] *)
              end
          end
    end.

(** The array is in order: every element is at most those after it. *)
Fixpoint ordered (arr : list string) : Prop :=
  match arr with
  | [] => True
  | x :: rest => (forall y, In y rest -> JS.leq x y = true) /\ ordered rest
  end.

(** A model list, for concrete runs. *)
Definition listed_models : Answer :=
  Listed [ Id (Some "claude-3-haiku-20240307");
           Id (Some "claude-Sonnet-4-20250514");
           Id None;
           Id (Some "zephyr-2");
           Id (Some "claude-3-5-sonnet-20241022") ].

End LatestModel.

(* ##################################################################### *)
(** * Part II: its properties *)
(* ##################################################################### *)

(* ===================================================================== *)
(** ** Facts: Platform string primitives *)
(* ===================================================================== *)

Module JSFacts.

Import JS.

(** *** Facts on the string primitives *)

Lemma take_drop n : forall s, s = take n s ++ drop n s.
Proof.
  induction n as [|n IH]; intros [|c s]; simpl; auto.
  change (String c s = String c (take n s ++ drop n s)).
  f_equal. apply IH.
Qed.

Lemma take_length n : forall s,
  (n <= String.length s)%nat -> String.length (take n s) = n.
Proof.
  induction n as [|n IH]; intros [|c s] Hn; simpl in *; auto; try lia.
  rewrite IH; auto. lia.
Qed.

Lemma slice_from_start n s : slice 0 n s = take n s.
Proof. unfold slice. by rewrite Nat.sub_0_r. Qed.

Lemma no_space_cons c s : no_space (String c s) -> is_space c = false /\ no_space s.
Proof.
  intros H. split; [apply H; by left|]. intros c' Hc'. apply H. by right.
Qed.

Lemma collapse_spaces_no_space s : no_space s -> collapse_spaces s = s.
Proof.
  induction s as [|c s IH]; intros Hs; [done|].
  apply no_space_cons in Hs as [Hc Hs]. cbn [collapse_spaces].
  rewrite Hc. by rewrite IH.
Qed.

Lemma trimStart_no_space s : no_space s -> trimStart s = s.
Proof.
  destruct s as [|c s]; intros Hs; [done|].
  apply no_space_cons in Hs as [Hc _]. cbn [trimStart]. by rewrite Hc.
Qed.

Lemma trimEnd_no_space s : no_space s -> trimEnd s = s.
Proof.
  induction s as [|c s IH]; intros Hs; [done|].
  apply no_space_cons in Hs as [Hc Hs]. cbn [trimEnd].
  rewrite IH by done. rewrite Hc. by destruct s.
Qed.

Lemma trim_no_space s : no_space s -> trim s = s.
Proof.
  intros Hs. unfold trim. rewrite trimStart_no_space by done.
  by apply trimEnd_no_space.
Qed.

Lemma append_nil_r s : (s ++ "")%string = s.
Proof. induction s as [|c s IH]; simpl; congruence. Qed.

Lemma append_assoc x y z : ((x ++ y) ++ z)%string = (x ++ y ++ z)%string.
Proof. induction x as [|c x IH]; simpl; congruence. Qed.

Lemma strip_no_trailing s : last_is_slash s = false -> strip_trailing_slash s = s.
Proof.
  induction s as [|c s IH]; intros Hs; [done|].
  destruct s as [|c' s]; simpl in *.
  - by rewrite Hs.
  - by rewrite IH.
Qed.

Lemma strip_app x y :
  y <> EmptyString ->
  strip_trailing_slash (x ++ y) = (x ++ strip_trailing_slash y)%string.
Proof.
  intros Hy. induction x as [|c x IH]; [done|].
  simpl. rewrite IH. destruct (x ++ y)%string eqn:Hxy; [|done].
  destruct x; simpl in Hxy; [congruence|discriminate].
Qed.

Lemma last_is_slash_app x y :
  y <> EmptyString -> last_is_slash (x ++ y) = last_is_slash y.
Proof.
  intros Hy. induction x as [|c x IH]; [done|].
  simpl. rewrite IH. destruct (x ++ y)%string eqn:Hxy; [|done].
  destruct x; simpl in Hxy; [congruence|discriminate].
Qed.

Lemma last_is_slash_strip s :
  last_is_slash s = false -> last_is_slash (strip_trailing_slash s) = false.
Proof. intros Hs. by rewrite strip_no_trailing. Qed.

Lemma collapse_cons c c' s :
  collapse_slashes (String c (String c' s))
  = if is_slash c && is_slash c' then collapse_slashes (String c' s)
    else String c (collapse_slashes (String c' s)).
Proof. reflexivity. Qed.

Lemma no_double_slash_cons c c' s :
  no_double_slash (String c (String c' s))
  = negb (is_slash c && is_slash c') && no_double_slash (String c' s).
Proof. reflexivity. Qed.

Lemma collapse_no_double s : no_double_slash s = true -> collapse_slashes s = s.
Proof.
  induction s as [|c s IH]; intros Hs; [done|].
  destruct s as [|c' s]; [done|].
  rewrite no_double_slash_cons in Hs. apply andb_true_iff in Hs as [Hcc Hs].
  rewrite collapse_cons. apply negb_true_iff in Hcc. rewrite Hcc.
  by rewrite IH.
Qed.

Lemma collapse_head c s : exists t, collapse_slashes (String c s) = String c t.
Proof.
  revert c. induction s as [|c' s IH]; intros c; [by exists EmptyString|].
  rewrite collapse_cons.
  destruct (is_slash c && is_slash c') eqn:Hcc; [|by eexists].
  apply andb_true_iff in Hcc as [Hc Hc'].
  unfold is_slash in *. apply Ascii.eqb_eq in Hc, Hc'. subst. apply IH.
Qed.

Lemma collapse_result_no_double s : no_double_slash (collapse_slashes s) = true.
Proof.
  induction s as [|c s IH]; [done|].
  destruct s as [|c' s]; [done|].
  rewrite collapse_cons.
  destruct (is_slash c && is_slash c') eqn:Hcc; [exact IH|].
  destruct (collapse_head c' s) as [t Ht]. rewrite Ht in *.
  rewrite no_double_slash_cons. by rewrite Hcc, IH.
Qed.

Lemma collapse_idempotent s :
  collapse_slashes (collapse_slashes s) = collapse_slashes s.
Proof. apply collapse_no_double, collapse_result_no_double. Qed.

Lemma collapse_last s : last_is_slash (collapse_slashes s) = last_is_slash s.
Proof.
  induction s as [|c s IH]; [done|].
  destruct s as [|c' s]; [done|].
  rewrite collapse_cons.
  destruct (is_slash c && is_slash c') eqn:Hcc; [exact IH|].
  destruct (collapse_head c' s) as [t Ht]. rewrite Ht in *.
  exact IH.
Qed.

Lemma collapse_all_chars P s :
  all_chars P s = true -> all_chars P (collapse_slashes s) = true.
Proof.
  induction s as [|c s IH]; intros Hs; [done|].
  destruct s as [|c' s]; [done|].
  change (P c && all_chars P (String c' s) = true) in Hs.
  apply andb_true_iff in Hs as [Hc Hs]. rewrite collapse_cons.
  destruct (is_slash c && is_slash c'); [by apply IH|].
  change (P c && all_chars P (collapse_slashes (String c' s)) = true).
  by rewrite Hc, IH.
Qed.

(** Collapsing goes through an append whose left part does not end with a
    slash and whose right part has no two slashes in a row. *)
Lemma collapse_app x y :
  last_is_slash x = false ->
  no_double_slash y = true ->
  collapse_slashes (x ++ y) = (collapse_slashes x ++ y)%string.
Proof.
  intros Hx Hy. induction x as [|c x IH]; [by apply collapse_no_double|].
  destruct x as [|c' x].
  - simpl in Hx. simpl. destruct y as [|d y]; [done|].
    rewrite Hx. cbn [andb]. by rewrite collapse_no_double.
  - change (String c (String c' x) ++ y)%string
      with (String c (String c' (x ++ y))).
    rewrite !collapse_cons.
    change (String c' (x ++ y))%string with (String c' x ++ y)%string.
    rewrite IH by exact Hx.
    by destruct (is_slash c && is_slash c').
Qed.

Lemma endsWith_refl s : endsWith s s = true.
Proof. destruct s; simpl; [done|]. by rewrite Ascii.eqb_refl, String.eqb_refl. Qed.

Lemma endsWith_app x y : endsWith (x ++ y) y = true.
Proof.
  induction x as [|c x IH]; [apply endsWith_refl|].
  change (endsWith (String c x ++ y) y)
    with (if String.eqb (String c (x ++ y)) y then true
          else endsWith (x ++ y) y).
  rewrite IH. by destruct (String.eqb (String c (x ++ y)) y).
Qed.

Lemma endsWith_split s p : endsWith s p = true -> exists x, s = (x ++ p)%string.
Proof.
  induction s as [|c s IH]; cbn [endsWith]; intros Hs.
  - destruct (String.eqb_spec EmptyString p) as [Heq|]; [|done].
    exists EmptyString. by rewrite <- Heq.
  - destruct (String.eqb_spec (String c s) p) as [Heq|_].
    + exists EmptyString. by rewrite <- Heq.
    + destruct (IH Hs) as [x ->]. by exists (String c x).
Qed.

Lemma endsWith_last s p :
  p <> EmptyString -> endsWith s p = true -> last_is_slash s = last_is_slash p.
Proof.
  intros Hp Hs. apply endsWith_split in Hs as [x ->].
  by apply last_is_slash_app.
Qed.

Lemma strip_cons c c' s :
  strip_trailing_slash (String c (String c' s))
  = String c (strip_trailing_slash (String c' s)).
Proof. reflexivity. Qed.

Lemma strip_all_chars P s :
  all_chars P s = true -> all_chars P (strip_trailing_slash s) = true.
Proof.
  induction s as [|c s IH]; intros Hs; [done|].
  destruct s as [|c' s].
  - simpl. by destruct (is_slash c).
  - change (P c && all_chars P (String c' s) = true) in Hs.
    apply andb_true_iff in Hs as [Hc Hs]. rewrite strip_cons.
    change (P c && all_chars P (strip_trailing_slash (String c' s)) = true).
    by rewrite Hc, IH.
Qed.

Lemma strip_no_double s :
  no_double_slash s = true ->
  no_double_slash (strip_trailing_slash s) = true
  /\ last_is_slash (strip_trailing_slash s) = false.
Proof.
  induction s as [|c s IH]; intros Hs; [done|].
  destruct s as [|c' s].
  - simpl. destruct (is_slash c) eqn:Hc; simpl; auto.
  - rewrite no_double_slash_cons in Hs. apply andb_true_iff in Hs as [Hcc Hs].
    destruct (IH Hs) as [IH1 IH2]. rewrite strip_cons.
    destruct (strip_trailing_slash (String c' s)) as [|d t] eqn:Ht.
    + (* [String c' s] was a single slash *)
      destruct s; simpl in Ht; [|discriminate].
      destruct (is_slash c') eqn:Hc'; [|discriminate].
      rewrite andb_true_r in Hcc. apply negb_true_iff in Hcc.
      simpl. by rewrite Hcc.
    + assert (d = c') as ->.
      { destruct s; simpl in Ht; [destruct (is_slash c')|]; congruence. }
      rewrite no_double_slash_cons. rewrite Hcc, IH1. split; [done|].
      exact IH2.
Qed.

Lemma all_chars_app P x y :
  all_chars P (x ++ y) = all_chars P x && all_chars P y.
Proof.
  induction x as [|c x IH]; [done|]. simpl. by rewrite IH, andb_assoc.
Qed.

Lemma all_chars_impl (P Q : ascii -> bool) s :
  (forall c, P c = true -> Q c = true) ->
  all_chars P s = true -> all_chars Q s = true.
Proof.
  intros HPQ. induction s as [|c s IH]; [done|]. simpl.
  intros Hs. apply andb_true_iff in Hs as [Hc Hs]. by rewrite (HPQ c Hc), IH.
Qed.

Lemma all_chars_last P s :
  (forall c, P c = true -> is_slash c = false) ->
  all_chars P s = true -> last_is_slash s = false.
Proof.
  intros HP. induction s as [|c s IH]; [done|]. simpl.
  intros Hs. apply andb_true_iff in Hs as [Hc Hs].
  destruct s; [by apply HP|by apply IH].
Qed.

(** *** Facts on white space and on lengths *)

Lemma collapse_spaces_plain s : all_chars plain_space (collapse_spaces s) = true.
Proof.
  induction s as [|c s IH]; [done|]. cbn [collapse_spaces].
  destruct (is_space c) eqn:Hc.
  - destruct s as [|c' s]; [done|].
    destruct (is_space c'); [exact IH|].
    cbn [all_chars]. by rewrite IH.
  - cbn [all_chars]. unfold plain_space at 1. by rewrite Hc, IH.
Qed.

Lemma trimStart_all_chars P s :
  all_chars P s = true -> all_chars P (trimStart s) = true.
Proof.
  induction s as [|c s IH]; [done|]. cbn [trimStart]. intros Hs.
  destruct (is_space c); [|done].
  cbn [all_chars] in Hs. apply andb_true_iff in Hs as [_ Hs]. by apply IH.
Qed.

Lemma trimEnd_all_chars P s :
  all_chars P s = true -> all_chars P (trimEnd s) = true.
Proof.
  induction s as [|c s IH]; [done|]. cbn [trimEnd all_chars]. intros Hs.
  apply andb_true_iff in Hs as [Hc Hs]. specialize (IH Hs).
  destruct (trimEnd s) as [|d t].
  - destruct (is_space c); [done|]. cbn [all_chars]. by rewrite Hc.
  - cbn [all_chars] in *. by rewrite Hc, IH.
Qed.

Lemma trim_all_chars P s : all_chars P s = true -> all_chars P (trim s) = true.
Proof. intros Hs. by apply trimEnd_all_chars, trimStart_all_chars. Qed.

Lemma take_all_chars P n : forall s,
  all_chars P s = true -> all_chars P (take n s) = true.
Proof.
  induction n as [|n IH]; intros [|c s] Hs; try done.
  cbn [take all_chars] in *. apply andb_true_iff in Hs as [Hc Hs].
  by rewrite Hc, IH.
Qed.

Lemma take_length_le n : forall s, (String.length (take n s) <= n)%nat.
Proof.
  induction n as [|n IH]; intros [|c s]; cbn [take String.length]; try lia.
  specialize (IH s). lia.
Qed.

Lemma length_append x y :
  String.length (x ++ y) = (String.length x + String.length y)%nat.
Proof. induction x as [|c x IH]; [done|]. cbn. by rewrite IH. Qed.

End JSFacts.

(* ===================================================================== *)
(** ** Facts: src/url.ts *)
(* ===================================================================== *)

Module UrlFacts.

Import Url.

Lemma host_char_no_delim c : host_char c = true -> is_delim "/?#" c = false.
Proof.
  destruct c as [[] [] [] [] [] [] [] []]; vm_compute; congruence.
Qed.

Lemma host_char_no_slash c : host_char c = true -> JS.is_slash c = false.
Proof.
  destruct c as [[] [] [] [] [] [] [] []]; vm_compute; congruence.
Qed.

Lemma path_char_no_delim c : path_char c = true -> is_delim "?#" c = false.
Proof.
  destruct c as [[] [] [] [] [] [] [] []]; vm_compute; congruence.
Qed.

Lemma until_app stops a rest :
  JS.all_chars (fun c => negb (is_delim stops c)) a = true ->
  begins_with_delim stops rest = true ->
  take_until stops (a ++ rest) = a /\ drop_until stops (a ++ rest) = rest.
Proof.
  intros Ha Hrest. induction a as [|c a IH].
  - destruct rest as [|d rest]; [done|]. simpl in *. by rewrite Hrest.
  - simpl in Ha. apply andb_true_iff in Ha as [Hc Ha].
    apply negb_true_iff in Hc. simpl. rewrite Hc.
    destruct (IH Ha) as [-> ->]. done.
Qed.

Lemma until_all stops a :
  JS.all_chars (fun c => negb (is_delim stops c)) a = true ->
  take_until stops a = a /\ drop_until stops a = EmptyString.
Proof.
  intros Ha. destruct (until_app stops a EmptyString Ha eq_refl) as [H1 H2].
  by rewrite JSFacts.append_nil_r in H1, H2.
Qed.

Lemma strip_scheme_scheme scheme rest :
  is_scheme scheme = true ->
  strip_scheme (scheme ++ rest) = Some (scheme, rest).
Proof.
  unfold is_scheme. intros Hs. apply orb_true_iff in Hs as [Hs|Hs];
    apply String.eqb_eq in Hs; subst scheme; reflexivity.
Qed.

Lemma begins_with_slash_delim p :
  p = EmptyString \/ JS.startsWith p "/" = true ->
  begins_with_delim "/?#" p = true.
Proof.
  intros [->|Hp]; [done|]. destruct p as [|c p]; [done|].
  cbn [JS.startsWith] in Hp. apply andb_true_iff in Hp as [Hc _].
  apply Ascii.eqb_eq in Hc. by subst c.
Qed.

(** What the model parser makes of a URL in plain form. *)
Lemma http_parse_plain accepts scheme auth path :
  is_scheme scheme = true ->
  canonical_authority auth = true ->
  accepts auth = true ->
  JS.all_chars path_char path = true ->
  path = EmptyString \/ JS.startsWith path "/" = true ->
  http_parse accepts ((scheme ++ auth) ++ path)
  = Some {| origin := scheme ++ auth;
            pathname := if String.eqb path "" then "/" else path;
            search_hash := "" |}.
Proof.
  intros Hs Ha Hacc Hp Hstart. unfold canonical_authority in Ha.
  apply andb_true_iff in Ha as [Hne Ha]. apply negb_true_iff in Hne.
  unfold http_parse. rewrite JSFacts.append_assoc, strip_scheme_scheme by done.
  destruct (until_app "/?#" auth path) as [-> ->].
  { eapply JSFacts.all_chars_impl; [|exact Ha].
    intros c Hc. by rewrite host_char_no_delim. }
  { by apply begins_with_slash_delim. }
  destruct (until_all "?#" path) as [-> ->].
  { eapply JSFacts.all_chars_impl; [|exact Hp].
    intros c Hc. by rewrite path_char_no_delim. }
  by rewrite Hne, Hacc.
Qed.

Lemma normalizeMount_head m : exists t, normalizeMount m = String "/" t.
Proof.
  unfold normalizeMount.
  set (m' := if JS.startsWith m "/" then m else ("/" ++ m)%string).
  assert (exists t, m' = String "/" t) as [t Ht].
  { subst m'. destruct (JS.startsWith m "/") eqn:Hm; [|by eexists].
    destruct m as [|c m]; [done|]. cbn [JS.startsWith] in Hm.
    apply andb_true_iff in Hm as [Hc _]. apply Ascii.eqb_eq in Hc.
    subst c. by eexists. }
  destruct (String.eqb m' "/") eqn:Heq; [by eexists|].
  rewrite Ht in *. destruct t as [|c t]; [done|].
  rewrite JSFacts.strip_cons. by eexists.
Qed.

(** The normalised mount path of a plain mount path. *)
Lemma normalizeMount_plain m :
  plain_mount m = true ->
  let mp := normalizeMount m in
  JS.all_chars path_char mp = true
  /\ JS.no_double_slash mp = true
  /\ (mp = "/" \/ (JS.last_is_slash mp = false /\ mp <> EmptyString)).
Proof.
  intros Hm. unfold plain_mount in Hm. apply andb_true_iff in Hm as [Hc Hd].
  cbn zeta. destruct (normalizeMount_head m) as [t Ht].
  unfold normalizeMount in *.
  set (m' := if JS.startsWith m "/" then m else ("/" ++ m)%string) in *.
  assert (JS.all_chars path_char m' = true /\ JS.no_double_slash m' = true)
    as [Hc' Hd'].
  { subst m'. destruct (JS.startsWith m "/") eqn:Hs; [done|].
    split; [simpl; by rewrite Hc|].
    destruct m as [|c m]; [done|].
    change ("/" ++ String c m)%string with (String "/" (String c m)).
    rewrite JSFacts.no_double_slash_cons, Hd.
    cbn [JS.startsWith] in Hs. rewrite andb_true_r in Hs.
    unfold JS.is_slash. rewrite (Ascii.eqb_sym c "/"), Hs. done. }
  destruct (String.eqb m' "/") eqn:Heq.
  - split; [done|]. split; [done|]. by left.
  - destruct (JSFacts.strip_no_double m' Hd') as [Hd2 Hl2].
    split; [by apply JSFacts.strip_all_chars|]. split; [done|].
    right. split; [done|]. by rewrite Ht.
Qed.

Lemma normalizeUrl_strip `{URLImpl} b b' m :
  JS.strip_trailing_slash b = JS.strip_trailing_slash b' ->
  normalizeUrl b m = normalizeUrl b' m.
Proof. intros Hb. unfold normalizeUrl. by rewrite Hb. Qed.

Section Plain.

Variables scheme auth : string.
Hypothesis Hscheme : is_scheme scheme = true.
Hypothesis Hauth : canonical_authority auth = true.

Lemma base_no_trailing_slash : JS.last_is_slash (scheme ++ auth) = false.
Proof.
  unfold canonical_authority in Hauth.
  apply andb_true_iff in Hauth as [Hne Ha]. apply negb_true_iff in Hne.
  rewrite JSFacts.last_is_slash_app.
  - eapply JSFacts.all_chars_last; [|exact Ha]. apply host_char_no_slash.
  - intros ->. discriminate.
Qed.

Lemma base_path_no_trailing_slash p :
  settled p -> JS.last_is_slash ((scheme ++ auth) ++ p) = false.
Proof.
  intros (_ & _ & Hl). destruct p as [|c p].
  - rewrite JSFacts.append_nil_r. apply base_no_trailing_slash.
  - by rewrite JSFacts.last_is_slash_app.
Qed.

Lemma starts_with_slash_app p q :
  p = EmptyString \/ JS.startsWith p "/" = true ->
  (exists t, q = String "/" t) ->
  exists t, (p ++ q)%string = String "/" t.
Proof.
  intros [->|Hp] [t ->]; [by eexists|].
  destruct p as [|c p]; [done|]. cbn [JS.startsWith] in Hp.
  apply andb_true_iff in Hp as [Hc _]. apply Ascii.eqb_eq in Hc. subst c.
  by eexists.
Qed.

Variable accepts : string -> bool.
Hypothesis Haccepts : accepts auth = true.

(** [normalizeUrl] on a base whose path is settled. *)
Lemma normalizeUrl_settled p m :
  settled p ->
  @normalizeUrl (HttpURLImpl accepts) ((scheme ++ auth) ++ p) m
  = if String.eqb p (normalizeMount m) || JS.endsWith p (normalizeMount m)
    then ((scheme ++ auth) ++ p)%string
    else JS.strip_trailing_slash
           ((scheme ++ auth)
            ++ JS.collapse_slashes (p ++ normalizeMount m))%string.
Proof.
  intros Hp. pose proof Hp as (Hc & Hstart & Hl).
  unfold normalizeUrl.
  rewrite (JSFacts.strip_no_trailing _ (base_path_no_trailing_slash p Hp)).
  cbn [URL_new URL_pathname URL_set_pathname URL_toString HttpURLImpl].
  rewrite http_parse_plain by done. cbn [pathname].
  assert (JS.or_else
            (JS.strip_trailing_slash (if String.eqb p "" then "/" else p)) ""
          = p) as ->.
  { destruct p as [|c p]; [done|]. cbn [String.eqb].
    rewrite JSFacts.strip_no_trailing by done. reflexivity. }
  destruct (String.eqb p (normalizeMount m)); [done|]. cbn [orb].
  destruct (JS.endsWith p (normalizeMount m)); [done|].
  destruct (starts_with_slash_app p (normalizeMount m) Hstart
              (normalizeMount_head m)) as [t Ht].
  rewrite Ht. destruct (JSFacts.collapse_head "/" t) as [t' Ht'].
  unfold http_toString, http_set_pathname. cbn [origin pathname search_hash].
  rewrite Ht'. cbn [JS.startsWith Ascii.eqb Bool.eqb andb].
  by rewrite JSFacts.append_nil_r.
Qed.

End Plain.

Lemma settled_strip path : plain_path path = true -> settled (JS.strip_trailing_slash path).
Proof.
  unfold plain_path. intros Hp.
  apply andb_true_iff in Hp as [Hp Hl]. apply andb_true_iff in Hp as [Hc Hs].
  apply negb_true_iff in Hl. split; [by apply JSFacts.strip_all_chars|].
  split; [|done].
  apply orb_true_iff in Hs as [Hs|Hs].
  - apply String.eqb_eq in Hs. subst path. by left.
  - destruct path as [|c [|c' path]]; [by left| |].
    + simpl. destruct (JS.is_slash c); [by left|by right].
    + right. by rewrite JSFacts.strip_cons.
Qed.

Lemma settled_collapse p : settled p -> settled (JS.collapse_slashes p).
Proof.
  intros (Hc & Hs & Hl). split; [by apply JSFacts.collapse_all_chars|].
  split; [|by rewrite JSFacts.collapse_last].
  destruct p as [|c p]; [by left|]. right.
  destruct Hs as [|Hs]; [done|].
  destruct (JSFacts.collapse_head c p) as [t ->]. exact Hs.
Qed.

Lemma not_mounted_at_root p :
  JS.last_is_slash p = false ->
  String.eqb p "/" || JS.endsWith p "/" = false.
Proof.
  intros Hl. apply orb_false_iff. split.
  - destruct (String.eqb_spec p "/") as [->|]; [discriminate|done].
  - destruct (JS.endsWith p "/") eqn:He; [|done].
    apply JSFacts.endsWith_last in He; [|done]. rewrite Hl in He. discriminate.
Qed.



Example normalizeUrl_default :
  @normalizeUrl PlainURL "http://127.0.0.1:5173" "/mcp"
  = "http://127.0.0.1:5173/mcp"
  /\ @normalizeUrl PlainURL "http://127.0.0.1:5173/api/" "mcp/"
     = "http://127.0.0.1:5173/api/mcp"
  /\ @normalizeUrl PlainURL "http://127.0.0.1:5173/api/mcp" "mcp/"
     = "http://127.0.0.1:5173/api/mcp".
Proof. vm_compute. auto. Qed.


(** The same happens with a base the constructor accepts, when the mount
    path has two slashes in a row, or when the base ends with two slashes. *)
Example normalizeUrl_double_slash_mount :
  @normalizeUrl PlainURL "http://h" "//mcp" = "http://h/mcp"
  /\ @normalizeUrl PlainURL "http://h/mcp" "//mcp" = "http://h/mcp/mcp".
Proof. vm_compute. auto. Qed.

Example normalizeUrl_double_slash_base :
  @normalizeUrl PlainURL "http://h/mcp//" "/mcp" = "http://h/mcp/"
  /\ @normalizeUrl PlainURL "http://h/mcp/" "/mcp" = "http://h/mcp".
Proof. vm_compute. auto. Qed.

(** *** Slashes at the seam *)

Lemma normalizeUrl_mount `{URLImpl} b m m' :
  normalizeMount m = normalizeMount m' -> normalizeUrl b m = normalizeUrl b m'.
Proof. intros Hm. unfold normalizeUrl. by rewrite Hm. Qed.

Lemma normalizeMount_bare m :
  JS.startsWith m "/" = false ->
  JS.last_is_slash m = false ->
  normalizeMount m = if String.eqb m "" then "/" else ("/" ++ m)%string.
Proof.
  intros Hs Hl. unfold normalizeMount. rewrite Hs.
  destruct m as [|c m]; [reflexivity|].
  change ("/" ++ String c m)%string with (String "/" (String c m)).
  cbn [String.eqb Ascii.eqb Bool.eqb]. rewrite JSFacts.strip_cons.
  by rewrite (JSFacts.strip_no_trailing (String c m)).
Qed.

Lemma normalizeMount_slashed m :
  JS.startsWith m "/" = false ->
  JS.last_is_slash m = false ->
  normalizeMount ("/" ++ m) = normalizeMount m
  /\ normalizeMount (m ++ "/") = normalizeMount m
  /\ normalizeMount ("/" ++ m ++ "/") = normalizeMount m.
Proof.
  intros Hs Hl. rewrite (normalizeMount_bare m Hs Hl).
  destruct m as [|c m]; [by vm_compute|].
  cbn [String.eqb].
  assert (JS.strip_trailing_slash (String "/" (String c m ++ "/"))
          = String "/" (String c m)) as Hstrip.
  { change (String "/" (String c m ++ "/"))%string
      with (String "/" (String c m) ++ "/")%string.
    rewrite JSFacts.strip_app by done. apply JSFacts.append_nil_r. }
  split; [|split].
  - unfold normalizeMount.
    change ("/" ++ String c m)%string with (String "/" (String c m)).
    cbn [JS.startsWith Ascii.eqb Bool.eqb andb String.eqb].
    rewrite JSFacts.strip_cons.
    by rewrite (JSFacts.strip_no_trailing (String c m)).
  - unfold normalizeMount.
    change (String c m ++ "/")%string with (String c (m ++ "/")).
    cbn [JS.startsWith] in *. rewrite Hs.
    change ("/" ++ String c (m ++ "/"))%string
      with (String "/" (String c m ++ "/")).
    rewrite Hstrip.
    change (String c m ++ "/")%string with (String c (m ++ "/")).
    by cbn [String.eqb Ascii.eqb Bool.eqb].
  - unfold normalizeMount.
    change ("/" ++ String c m ++ "/")%string
      with (String "/" (String c m ++ "/")).
    cbn [JS.startsWith Ascii.eqb Bool.eqb andb].
    rewrite Hstrip.
    change (String c m ++ "/")%string with (String c (m ++ "/")).
    by cbn [String.eqb Ascii.eqb Bool.eqb].
Qed.

(** X1.  Whatever the platform's [URL] class does: one trailing slash on the
    base URL, one leading slash and one trailing slash on the mount path make
    no difference.  For a base [b] that does not end with a slash and a mount
    path [m] that neither begins nor ends with one, the two ways of writing
    the base and the four ways of writing the mount path all give the result
    of [normalizeUrl b m]. *)
Theorem normalizeUrl_seam_slashes `{URLImpl} (b m b' m' : string) :
  JS.last_is_slash b = false ->
  JS.startsWith m "/" = false ->
  JS.last_is_slash m = false ->
  In b' [b; b ++ "/"]%string ->
  In m' [m; "/" ++ m; m ++ "/"; "/" ++ m ++ "/"]%string ->
  normalizeUrl b' m' = normalizeUrl b m.
Proof.
  intros Hb Hs Hl Hb' Hm'.
  destruct (normalizeMount_slashed m Hs Hl) as (H1 & H2 & H3).
  assert (normalizeMount m' = normalizeMount m) as Hmount.
  { destruct Hm' as [<-|[<-|[<-|[<-|[]]]]]; auto. }
  rewrite (normalizeUrl_mount b' m' m Hmount).
  apply normalizeUrl_strip.
  destruct Hb' as [<-|[<-|[]]]; [done|].
  rewrite JSFacts.strip_app by done.
  rewrite JSFacts.append_nil_r. by rewrite JSFacts.strip_no_trailing.
Qed.

Lemma normalizeUrl_seam_slashes_witness :
  @normalizeUrl PlainURL "http://127.0.0.1:5173/" "/mcp/"
  = @normalizeUrl PlainURL "http://127.0.0.1:5173" "mcp".
Proof.
  apply (@normalizeUrl_seam_slashes PlainURL "http://127.0.0.1:5173" "mcp");
    try reflexivity.
  - right. by left.
  - right. right. right. by left.
Defined.

(** *** The result on plain http(s) URLs *)

Lemma plain_path_strip scheme auth path :
  canonical_authority auth = true ->
  plain_path path = true ->
  JS.strip_trailing_slash (scheme ++ auth ++ path)
  = ((scheme ++ auth) ++ JS.strip_trailing_slash path)%string.
Proof.
  intros Hauth Hpath.
  pose proof (settled_strip path Hpath) as Hp1.
  rewrite <- JSFacts.append_assoc.
  destruct path as [|c path]; [|by rewrite JSFacts.strip_app].
  cbn [JS.strip_trailing_slash]. rewrite JSFacts.append_nil_r.
  by apply JSFacts.strip_no_trailing, base_no_trailing_slash.
Qed.



(** *** The query string and the fragment of the base *)

Lemma plain_query_spec q :
  plain_query q = true ->
  q <> EmptyString
  /\ begins_with_delim "/?#" q = true
  /\ begins_with_delim "?#" q = true
  /\ JS.last_is_slash q = false.
Proof.
  unfold plain_query. intros Hq.
  apply andb_true_iff in Hq as [Hq Hl]. apply andb_true_iff in Hq as [Hd _].
  apply negb_true_iff in Hl. destruct q as [|c q]; [discriminate|].
  split; [done|]. split; [|done]. cbn [begins_with_delim].
  unfold is_delim in *. cbn [list_ascii_of_string existsb] in *.
  rewrite Hd. apply orb_true_r.
Qed.

Lemma http_parse_query accepts scheme auth p q :
  is_scheme scheme = true ->
  canonical_authority auth = true ->
  accepts auth = true ->
  settled p ->
  plain_query q = true ->
  http_parse accepts (scheme ++ auth ++ p ++ q)
  = Some {| origin := scheme ++ auth;
            pathname := if String.eqb p "" then "/" else p;
            search_hash := q |}.
Proof.
  intros Hs Ha Hacc (Hp & Hstart & _) Hq.
  destruct (plain_query_spec q Hq) as (Hne & Hq1 & Hq2 & _).
  unfold canonical_authority in Ha.
  apply andb_true_iff in Ha as [Hane Ha]. apply negb_true_iff in Hane.
  unfold http_parse. rewrite strip_scheme_scheme by done.
  destruct (until_app "/?#" auth (p ++ q)) as [-> ->].
  { eapply JSFacts.all_chars_impl; [|exact Ha].
    intros c Hc. by rewrite host_char_no_delim. }
  { destruct Hstart as [->|Hstart]; [done|].
    destruct p as [|c p]; [done|]. cbn [JS.startsWith] in Hstart.
    apply andb_true_iff in Hstart as [Hc _]. apply Ascii.eqb_eq in Hc.
    by subst c. }
  destruct (until_app "?#" p q) as [-> ->]; [|done|].
  { eapply JSFacts.all_chars_impl; [|exact Hp].
    intros c Hc. by rewrite path_char_no_delim. }
  by rewrite Hane, Hacc.
Qed.



End UrlFacts.

(* ===================================================================== *)
(** ** Facts: ClientSession: request/response correlation *)
(* ===================================================================== *)

Module SessionFacts.

Import Session.

Local Open Scope list_scope.

Section WithTransport.

Context `{Transport}.

(** *** Invariants of the session *)

Lemma js_succ_ge n : (n <= js_succ n)%Z.
Proof. unfold js_succ. destruct (n <? MAX_SAFE)%Z; lia. Qed.

Lemma js_succ_safe n : (n < MAX_SAFE)%Z -> js_succ n = (n + 1)%Z.
Proof. unfold js_succ. intros Hn. destruct (Z.ltb_spec n MAX_SAFE); lia. Qed.

Lemma call_fields method params s :
  let s' := snd (call method params s) in
  idCounter s' = js_succ (idCounter s)
  /\ pending s' = <[inl (idCounter s) := length (promises s)]> (pending s)
  /\ listening s' = listening s
  /\ promises s' = promises s ++ [Unsettled].
Proof.
  unfold call. destruct (send _ _) as [ok t]. simpl. auto.
Qed.

Lemma settle_length p v store : length (settle p v store) = length store.
Proof.
  unfold settle. destruct (store !! p) as [[]|]; auto.
  apply length_insert.
Qed.

Lemma settle_other p q v store :
  p <> q -> settle p v store !! q = store !! q.
Proof.
  intros Hpq. unfold settle. destruct (store !! p) as [[]|]; auto.
  by apply list_lookup_insert_ne.
Qed.

Lemma settle_unsettled p v store :
  store !! p = Some Unsettled -> settle p v store !! p = Some v.
Proof.
  intros Hp. unfold settle. rewrite Hp.
  apply list_lookup_insert_eq. by eapply lookup_lt_Some.
Qed.

Lemma settle_settled p q v o store :
  store !! q = Some o -> o <> Unsettled -> settle p v store !! q = Some o.
Proof.
  intros Hq Ho. destruct (decide (p = q)) as [->|Hne].
  - unfold settle. rewrite Hq. by destruct o.
  - by rewrite settle_other.
Qed.

Lemma outcome_settled m : outcome m <> Unsettled.
Proof. unfold outcome. by destruct (msg_error m). Qed.

Lemma pending_delete_subset v m k p :
  pending_delete v m !! k = Some p -> m !! k = Some p.
Proof.
  destruct v as [k'|]; simpl; auto.
  intros Hk. apply lookup_delete_Some in Hk. tauto.
Qed.

Lemma step_handlers_in_store s e :
  handlers_in_store s -> handlers_in_store (step s e).
Proof.
  intros Hs. destruct e as [m prm|msg|]; simpl.
  - destruct (call_fields m prm s) as (_ & Hp & _ & Hst).
    intros k p. rewrite Hp, Hst, length_app. simpl.
    destruct (decide (k = inl (idCounter s))) as [->|Hne].
    + rewrite lookup_insert_eq. intros [= <-]. lia.
    + rewrite lookup_insert_ne by done. intros Hk. apply Hs in Hk. lia.
  - unfold on_message. destruct (listening s); auto.
    destruct msg as [|m]; simpl; auto.
    destruct (msg_id m) as [v|]; auto.
    destruct (pending_get v (pending s)) as [h|]; auto.
    intros k p. simpl. intros Hk. apply pending_delete_subset in Hk.
    unfold handler. rewrite settle_length. eauto.
  - exact Hs.
Qed.

Lemma run_handlers_in_store es s :
  handlers_in_store s -> handlers_in_store (run es s).
Proof.
  revert s. induction es as [|e es IH]; intros s Hs; simpl; auto.
  apply IH. by apply step_handlers_in_store.
Qed.

Lemma step_listening s e : listening (step s e) = listening s.
Proof.
  destruct e as [m prm|msg|]; simpl; auto.
  - by destruct (call_fields m prm s) as (_ & _ & Hl & _).
  - unfold on_message. destruct (listening s) eqn:Hl; auto.
    destruct msg as [|m]; simpl; auto.
    destruct (msg_id m) as [v|]; auto.
    destruct (pending_get v (pending s)); auto.
Qed.

Lemma run_listening es s : listening (run es s) = listening s.
Proof.
  revert s. induction es as [|e es IH]; intros s; simpl; auto.
  by rewrite IH, step_listening.
Qed.

Lemma step_idCounter s e :
  idCounter (step s e) = if is_call e then js_succ (idCounter s) else idCounter s.
Proof.
  destruct e as [m prm|msg|]; simpl; auto.
  - by destruct (call_fields m prm s) as (Hc & _).
  - unfold on_message. destruct (listening s); auto.
    destruct msg as [|m]; simpl; auto.
    destruct (msg_id m) as [v|]; auto.
    destruct (pending_get v (pending s)); auto.
Qed.

(** A promise that is settled keeps its value whatever happens next. *)
Lemma step_settled s e p o :
  promises s !! p = Some o -> o <> Unsettled -> promises (step s e) !! p = Some o.
Proof.
  intros Hp Ho. destruct e as [m prm|msg|]; simpl; auto.
  - destruct (call_fields m prm s) as (_ & _ & _ & Hst). rewrite Hst.
    rewrite lookup_app_l; auto. by eapply lookup_lt_Some.
  - unfold on_message. destruct (listening s); auto.
    destruct msg as [|m]; simpl; auto.
    destruct (msg_id m) as [v|]; auto.
    destruct (pending_get v (pending s)) as [h|]; auto.
    simpl. by apply settle_settled.
Qed.

Lemma run_settled es s p o :
  promises s !! p = Some o -> o <> Unsettled -> promises (run es s) !! p = Some o.
Proof.
  revert s. induction es as [|e es IH]; intros s Hp Ho; simpl; auto.
  apply IH; auto. by apply step_settled.
Qed.

Lemma carries_id_spec id m :
  carries_id id (Recv (Obj m)) = true <-> msg_id m = Some (IdKey (inl id)).
Proof.
  simpl. destruct (msg_id m) as [[[n|str]|]|]; split; try discriminate.
  - intros Hn. apply Z.eqb_eq in Hn. by subst.
  - intros [= ->]. apply Z.eqb_refl.
Qed.

(** The invariant of an outstanding call: while no message with its id has
    come, its handler stays registered under its id, for its promise only. *)
Lemma outstanding_call_run post : forall s id p,
  handlers_in_store s ->
  listening s = true ->
  pending s !! inl id = Some p ->
  promises s !! p = Some Unsettled ->
  (forall k q, pending s !! k = Some q -> q = p -> k = inl id) ->
  (id < idCounter s)%Z ->
  promises (run post s) !! p = Some (outcome_of (first_response id post)).
Proof.
  induction post as [|e post IH]; intros s id p Hwf Hl Hid Hp Huniq Hlt;
    [exact Hp|].
  change (run (e :: post) s) with (run post (step s e)).
  pose proof (step_handlers_in_store s e Hwf) as Hwf'.
  pose proof (step_listening s e) as Hl'. rewrite Hl in Hl'.
  destruct e as [m prm|msg|].
  - (* a later call: a larger id, a new promise *)
    cbn [first_response]. cbn [step] in *.
    destruct (call_fields m prm s) as (Hc & Hpd & Hls & Hst).
    apply IH; auto.
    + rewrite Hpd, lookup_insert_ne; auto. intros [= Heq]. lia.
    + rewrite Hst, lookup_app_l; auto. by eapply lookup_lt_Some.
    + intros k q. rewrite Hpd.
      destruct (decide (k = inl (idCounter s))) as [->|Hne].
      * rewrite lookup_insert_eq. intros [= <-] Heq.
        apply lookup_lt_Some in Hp. lia.
      * rewrite lookup_insert_ne by done. apply Huniq.
    + rewrite Hc. pose proof (js_succ_ge (idCounter s)). lia.
  - (* an inbound message *)
    cbn [step] in *. unfold on_message in *. rewrite Hl in *.
    destruct msg as [|m]; [apply IH; auto|].
    change (first_response id (Recv (Obj m) :: post))
      with (if carries_id id (Recv (Obj m)) then Some m
            else first_response id post).
    destruct (carries_id id (Recv (Obj m))) eqn:Hc.
    + (* the response of this call *)
      apply carries_id_spec in Hc. cbn [deliver]. rewrite Hc.
      cbn [pending_get]. rewrite Hid.
      apply run_settled; [|apply outcome_settled].
      cbn [promises]. unfold handler. by apply settle_unsettled.
    + assert (msg_id m <> Some (IdKey (inl id))) as Hne.
      { intros Hm. apply carries_id_spec in Hm. congruence. }
      cbn [deliver] in *.
      destruct (msg_id m) as [v|]; [|apply IH; auto].
      destruct (pending_get v (pending s)) as [h|] eqn:Hh; [|apply IH; auto].
      destruct v as [k|]; [|discriminate]. cbn [pending_get pending_delete] in *.
      assert (k <> inl id) as Hk by congruence.
      apply IH; cbn [pending promises idCounter]; auto.
      * rewrite lookup_delete_ne; auto.
      * unfold handler. rewrite settle_other; auto.
        intros ->. apply Hk. eapply Huniq; eauto.
      * intros k' q Hk'. apply lookup_delete_Some in Hk' as [_ Hk'].
        by apply Huniq.
  - (* close touches neither the pending map nor the promises *)
    cbn [first_response]. apply IH; auto.
Qed.

Lemma call_outcome method params s :
  call_id (fst (call method params s)) = idCounter s
  /\ call_promise (fst (call method params s)) = length (promises s).
Proof.
  unfold call. destruct (send _ _) as [[] t]; simpl; auto.
Qed.

(** The promise [call] returns is settled by the first message that carries
    the id of the call, and by nothing else. *)
Lemma call_then_run method params s post :
  handlers_in_store s ->
  listening s = true ->
  (idCounter s < MAX_SAFE)%Z ->
  promises (run post (snd (call method params s))) !! length (promises s)
  = Some (outcome_of (first_response (idCounter s) post)).
Proof.
  intros Hwf Hl Hsafe.
  pose proof (step_handlers_in_store s (DoCall method params) Hwf) as Hwf'.
  cbn [step] in Hwf'.
  destruct (call_fields method params s) as (Hc & Hpd & Hls & Hst).
  apply outstanding_call_run; auto.
  - congruence.
  - rewrite Hpd. apply lookup_insert_eq.
  - rewrite Hst. rewrite lookup_app_r by lia.
    by replace (length (promises s) - length (promises s)) with 0 by lia.
  - intros k q. rewrite Hpd.
    destruct (decide (k = inl (idCounter s))) as [->|Hne]; auto.
    rewrite lookup_insert_ne by done. intros Hk ->. apply Hwf in Hk. lia.
  - rewrite Hc, js_succ_safe; auto. lia.
Qed.

Lemma run_app es1 es2 s : run (es1 ++ es2) s = run es2 (run es1 s).
Proof. apply fold_left_app. Qed.

Lemma count_calls_app es1 es2 :
  count_calls (es1 ++ es2) = count_calls es1 + count_calls es2.
Proof. induction es1 as [|e es1 IH]; simpl; auto. rewrite IH. lia. Qed.

Lemma run_idCounter es s :
  (idCounter s + Z.of_nat (count_calls es) <= MAX_SAFE)%Z ->
  idCounter (run es s) = (idCounter s + Z.of_nat (count_calls es))%Z.
Proof.
  revert s. induction es as [|e es IH]; intros s Hle; simpl in *; [lia|].
  change (fold_left step es (step s e)) with (run es (step s e)).
  pose proof (step_idCounter s e) as He.
  destruct (is_call e).
  - rewrite js_succ_safe in He by lia. rewrite IH; rewrite He; lia.
  - rewrite IH; rewrite He; simpl in *; lia.
Qed.

(** The calls of a run get the successive values of the counter. *)
Lemma call_ids_closed_form es : forall s,
  (idCounter s + Z.of_nat (count_calls es) <= MAX_SAFE)%Z ->
  call_ids es s
  = map (fun i => (idCounter s + Z.of_nat i)%Z) (seq 0 (count_calls es)).
Proof.
  induction es as [|e es IH]; intros s Hle; [reflexivity|].
  pose proof (step_idCounter s e) as He.
  destruct e as [m prm|msg|]; cbn [call_ids count_calls is_call] in *.
  - rewrite js_succ_safe in He by lia.
    rewrite IH by (rewrite He; lia). rewrite He.
    cbn [Nat.add seq map]. f_equal; [f_equal; lia|].
    rewrite <- seq_shift, map_map. apply map_ext. intros i. lia.
  - rewrite IH by (rewrite He; simpl; lia). by rewrite He.
  - rewrite IH by (rewrite He; simpl; lia). by rewrite He.
Qed.

Lemma offsets_sorted (a : Z) n k :
  StronglySorted Z.lt (map (fun i => (a + Z.of_nat i)%Z) (seq k n)).
Proof.
  revert k. induction n as [|n IH]; intros k; simpl; constructor; auto.
  apply List.Forall_forall. intros x Hx.
  apply in_map_iff in Hx as (i & <- & Hi). apply in_seq in Hi. lia.
Qed.

(** Every state of a session that began with [initialize] has the listener
    running and its handlers in the store. *)
Lemma initialized_session (empty : Payload) (t : TransportState)
  (es : list Event) :
  let s := run es (initialize empty (new_session t)) in
  handlers_in_store s /\ listening s = true.
Proof.
  cbn zeta. split.
  - apply run_handlers_in_store. unfold initialize.
    apply (step_handlers_in_store _ (DoCall "initialize" empty)).
    intros k p. unfold ensureListener. cbn. by rewrite lookup_empty.
  - rewrite run_listening. unfold initialize.
    change (listening (step (ensureListener (new_session t))
                         (DoCall "initialize" empty)) = true).
    by rewrite step_listening.
Qed.

(** *** Correlation of requests and responses *)


(** *** Closing the session *)

(** C2, as the code has it.  [close] closes the transport and nothing else:
    the pending map and the promises are as before.  A call that is
    outstanding when the session is closed is therefore still unsettled after
    the close (it is not rejected), and from then on only a message with its
    id can settle it. *)
Theorem close_leaves_call_outstanding
  (s : ClientSession) (method : string) (params : Payload)
  (mid post : list Event) :
  handlers_in_store s ->
  listening s = true ->
  (idCounter s < MAX_SAFE)%Z ->
  first_response (idCounter s) mid = None ->
  let s1 := run mid (snd (call method params s)) in
  let p := length (promises s) in
  pending (close s1) = pending s1
  /\ promises (close s1) = promises s1
  /\ promises (close s1) !! p = Some Unsettled
  /\ promises (run post (close s1)) !! p
     = Some (outcome_of (first_response (idCounter s) post)).
Proof.
  intros Hwf Hl Hsafe Hnone. cbn zeta.
  assert (forall l, first_response (idCounter s) (mid ++ DoClose :: l)
                    = first_response (idCounter s) l) as Hskip.
  { intros l. induction mid as [|e mid IH]; [reflexivity|].
    cbn [app first_response] in *.
    destruct e as [| [|m] |]; auto.
    destruct (carries_id _ _); [discriminate|auto]. }
  split; [reflexivity|]. split; [reflexivity|]. split.
  - change (close (run mid (snd (call method params s))))
      with (run [DoClose] (run mid (snd (call method params s)))).
    rewrite <- run_app, call_then_run by assumption.
    by rewrite (Hskip []).
  - change (close (run mid (snd (call method params s))))
      with (run [DoClose] (run mid (snd (call method params s)))).
    rewrite <- !run_app. cbn [app].
    rewrite call_then_run by assumption. by rewrite Hskip.
Qed.

End WithTransport.

Example crossed_run_promises :
  promises (run crossed_run fake_session)
  = [Unsettled; @Resolved FakeTransport (Some "tools"); Rejected "boom"].
Proof. vm_compute. reflexivity. Qed.

Lemma fake_session_handlers : handlers_in_store fake_session.
Proof.
  intros k p. vm_compute. intros Hk.
  destruct k as [[|[]|]|]; try discriminate. by injection Hk as <-.
Qed.


Lemma close_leaves_call_outstanding_witness :
  let s1 := run [Recv notification]
              (snd (@call FakeTransport "call_tool" "{x}" fake_session)) in
  pending (close s1) = pending s1
  /\ promises (close s1) = promises s1
  /\ promises (close s1) !! 1 = Some Unsettled
  /\ promises (run [Recv (response 2 "late")] (close s1)) !! 1
     = Some (outcome_of (first_response 2 [Recv (response 2 "late")])).
Proof.
  apply (@close_leaves_call_outstanding FakeTransport fake_session
           "call_tool" "{x}" [Recv notification] [Recv (response 2 "late")]).
  - exact fake_session_handlers.
  - reflexivity.
  - vm_compute. reflexivity.
  - reflexivity.
Defined.

(** C2 fails as stated: after [close], the outstanding call is still in the
    pending map and its promise is unsettled, not rejected; with a stream
    that yields nothing more it is never settled. *)
Lemma close_does_not_reject :
  pending closed_with_call_outstanding !! inl 2%Z = Some 1
  /\ promises closed_with_call_outstanding !! 1 = Some Unsettled
  /\ promises (run [] closed_with_call_outstanding) !! 1 = Some Unsettled
  /\ (forall message,
        promises closed_with_call_outstanding !! 1 <> Some (Rejected message)).
Proof.
  vm_compute. repeat split; discriminate.
Qed.

(** *** A session that was never initialised *)

Section Lifetime.

Context `{Transport}.

Lemma step_not_listening s e :
  listening s = false ->
  promises (step s e)
  = promises s ++ (if is_call e then [Unsettled] else []).
Proof.
  intros Hl. destruct e as [m prm|msg|]; cbn [step is_call].
  - by destruct (call_fields m prm s) as (_ & _ & _ & ->).
  - unfold on_message. rewrite Hl. by rewrite app_nil_r.
  - cbn [close promises]. by rewrite app_nil_r.
Qed.

Lemma run_not_listening es : forall s,
  listening s = false ->
  promises (run es s) = promises s ++ repeat Unsettled (count_calls es).
Proof.
  induction es as [|e es IH]; intros s Hl.
  - cbn [run fold_left count_calls repeat]. by rewrite app_nil_r.
  - change (run (e :: es) s) with (run es (step s e)).
    rewrite IH by by rewrite step_listening.
    rewrite step_not_listening by done. cbn [count_calls].
    rewrite <- (assoc_L (++)). by destruct (is_call e).
Qed.

(** X4.  The listener is started by [initialize] and by nothing else: in a
    session that was constructed and then used without [initialize], no
    inbound message is ever consumed, and the promise of every call stays
    unsettled whatever the stream yields. *)
Theorem never_initialized_never_settles
  (t : TransportState) (es : list Event) :
  promises (run es (new_session t)) = repeat Unsettled (count_calls es).
Proof. by rewrite run_not_listening. Qed.

(** *** The keys of the pending map *)

Lemma step_numeric_keys s e : numeric_keys s -> numeric_keys (step s e).
Proof.
  intros Hs. destruct e as [m prm|msg|]; cbn [step].
  - destruct (call_fields m prm s) as (_ & Hp & _ & _).
    intros k p. rewrite Hp.
    destruct (decide (k = inl (idCounter s))) as [->|Hne]; [by eexists|].
    rewrite lookup_insert_ne by done. apply Hs.
  - unfold on_message. destruct (listening s); [|done].
    destruct msg as [|m]; [done|]. cbn [deliver].
    destruct (msg_id m) as [v|]; [|done].
    destruct (pending_get v (pending s)); [|done].
    intros k p Hk. cbn [pending] in Hk.
    apply pending_delete_subset in Hk. by eapply Hs.
  - exact Hs.
Qed.

Lemma run_numeric_keys es : forall s, numeric_keys s -> numeric_keys (run es s).
Proof.
  induction es as [|e es IH]; intros s Hs; [done|].
  apply IH. by apply step_numeric_keys.
Qed.

(** X5.  The ids of the calls are numbers, and the pending map is looked up with
    the [id] of the message as it is, so a response that carries its id as a
    string finds no handler: in every state of a session begun with
    [initialize], it is dropped and the session is left as it was. *)
Theorem string_id_finds_no_call
  (empty : Payload) (t : TransportState) (es : list Event)
  (id : string) (error : option RpcError) (result : option Payload) :
  let s := run es (initialize empty (new_session t)) in
  on_message
    (Obj {| msg_id := Some (IdKey (inr id)); msg_error := error;
            msg_result := result |}) s
  = s.
Proof.
  cbn zeta. set (s := run es (initialize empty (new_session t))).
  assert (numeric_keys s) as Hs.
  { apply run_numeric_keys. unfold initialize.
    apply (step_numeric_keys _ (DoCall "initialize" empty)).
    intros k p. unfold ensureListener. cbn. by rewrite lookup_empty. }
  unfold on_message. destruct (listening s); [|done].
  cbn [deliver msg_id pending_get].
  destruct (pending s !! inr id) as [p|] eqn:Hp; [|done].
  destruct (Hs _ _ Hp) as [n Hn]. discriminate.
Qed.

(** *** The life of an entry of the pending map *)

Lemma absent_stays_absent post : forall s id,
  pending s !! inl id = None ->
  (id < idCounter s)%Z ->
  pending (run post s) !! inl id = None.
Proof.
  induction post as [|e post IH]; intros s id Hid Hlt; [exact Hid|].
  change (run (e :: post) s) with (run post (step s e)).
  pose proof (step_idCounter s e) as Hc.
  pose proof (js_succ_ge (idCounter s)) as Hge.
  apply IH; [|destruct (is_call e); lia].
  destruct e as [m prm|msg|]; cbn [step].
  - destruct (call_fields m prm s) as (_ & -> & _ & _).
    rewrite lookup_insert_ne; [done|]. intros [= Heq]. lia.
  - unfold on_message. destruct (listening s); [|done].
    destruct msg as [|m]; [done|]. cbn [deliver].
    destruct (msg_id m) as [v|]; [|done].
    destruct (pending_get v (pending s)); [|done].
    cbn [pending]. destruct v as [k|]; [|done]. cbn [pending_delete].
    destruct (decide (k = inl id)) as [->|Hne].
    + apply lookup_delete_eq.
    + by rewrite lookup_delete_ne.
  - exact Hid.
Qed.

Lemma entry_until_response post : forall s id p,
  listening s = true ->
  pending s !! inl id = Some p ->
  (id < idCounter s)%Z ->
  pending (run post s) !! inl id
  = match first_response id post with Some _ => None | None => Some p end.
Proof.
  induction post as [|e post IH]; intros s id p Hl Hid Hlt; [exact Hid|].
  change (run (e :: post) s) with (run post (step s e)).
  pose proof (step_listening s e) as Hl'. rewrite Hl in Hl'.
  pose proof (step_idCounter s e) as Hc.
  pose proof (js_succ_ge (idCounter s)) as Hge.
  assert (id < idCounter (step s e))%Z as Hlt'
    by (destruct (is_call e); lia).
  destruct e as [m prm|msg|].
  - cbn [first_response]. apply IH; [done| |done]. cbn [step].
    destruct (call_fields m prm s) as (_ & -> & _ & _).
    rewrite lookup_insert_ne; [done|]. intros [= Heq]. lia.
  - destruct msg as [|m].
    { cbn [first_response]. apply IH; [done| |done].
      cbn [step]. unfold on_message. by rewrite Hl. }
    change (first_response id (Recv (Obj m) :: post))
      with (if carries_id id (Recv (Obj m)) then Some m
            else first_response id post).
    destruct (carries_id id (Recv (Obj m))) eqn:Hcarries.
    + apply carries_id_spec in Hcarries.
      apply absent_stays_absent; [|done].
      cbn [step]. unfold on_message. rewrite Hl. cbn [deliver].
      rewrite Hcarries. cbn [pending_get]. rewrite Hid.
      cbn [pending pending_delete]. apply lookup_delete_eq.
    + assert (msg_id m <> Some (IdKey (inl id))) as Hne.
      { intros Hm. apply carries_id_spec in Hm. congruence. }
      apply IH; [done| |done].
      cbn [step]. unfold on_message. rewrite Hl. cbn [deliver].
      destruct (msg_id m) as [v|]; [|done].
      destruct (pending_get v (pending s)); [|done].
      cbn [pending]. destruct v as [k|]; [|done]. cbn [pending_delete].
      rewrite lookup_delete_ne; [done|]. congruence.
  - cbn [first_response]. by apply IH.
Qed.

(** X6.  The handler of a call is registered under the id of the call until the
    first message with that id comes, and is removed by it: after any
    further calls, messages and closes, the pending map has the entry
    exactly when no response has come yet.  An entry whose response never
    comes is never removed. *)
Theorem pending_entry_until_response
  (s : ClientSession) (method : string) (params : Payload)
  (post : list Event) :
  listening s = true ->
  (idCounter s < MAX_SAFE)%Z ->
  pending (run post (snd (call method params s))) !! inl (idCounter s)
  = match first_response (idCounter s) post with
    | Some _ => None
    | None => Some (length (promises s))
    end.
Proof.
  intros Hl Hsafe.
  destruct (call_fields method params s) as (Hc & Hpd & Hls & _).
  apply entry_until_response.
  - congruence.
  - rewrite Hpd. apply lookup_insert_eq.
  - rewrite Hc, js_succ_safe by done. lia.
Qed.

End Lifetime.

Lemma pending_entry_until_response_witness :
  pending
    (run [Recv notification; Recv (response 2 "tables");
          @DoCall FakeTransport "list_tools" "{}"; Recv (response 2 "again")]
       (snd (@call FakeTransport "call_tool" "{x}" fake_session)))
    !! inl 2%Z
  = None.
Proof.
  apply (@pending_entry_until_response FakeTransport fake_session
           "call_tool" "{x}"
           [Recv notification; Recv (response 2 "tables");
            @DoCall FakeTransport "list_tools" "{}";
            Recv (response 2 "again")]).
  - reflexivity.
  - reflexivity.
Defined.

End SessionFacts.

(* ===================================================================== *)
(** ** Facts: streamableHttpClient: NDJSON over HTTP with endpoint probing *)
(* ===================================================================== *)

Module TransportFacts.

Import Transport.

Local Open Scope list_scope.

Section WithNetwork.

Context `{Network}.

Lemma same_endpoints_with_net c n : same_endpoints c (with_net c n).
Proof. by repeat split. Qed.

Lemma with_net_with_net c n n' : with_net (with_net c n) n' = with_net c n'.
Proof. reflexivity. Qed.

(** Candidates that never answer [ok] are passed over: only the network
    moves on. *)
Lemma probe_skips pre rest : forall c,
  (forall cand, In cand pre -> never_ok (base c ++ read cand)%string) ->
  exists n, probe (pre ++ rest) c = probe rest (with_net c n).
Proof.
  induction pre as [|cand pre IH]; intros c Hpre.
  - exists (net c). by destruct c.
  - cbn [app probe].
    pose proof (Hpre cand (or_introl eq_refl) (net c)) as Hc.
    destruct (fetch (net c) "GET" (base c ++ read cand)%string None)
      as [[pr|] n] eqn:Hf; cbn [fst] in Hc.
    + rewrite Hc.
      destruct (IH (with_net c n)) as [n' Hn'].
      { intros cand' Hin. apply Hpre. by right. }
      exists n'. by rewrite Hn'.
    + destruct (IH (with_net c n)) as [n' Hn'].
      { intros cand' Hin. apply Hpre. by right. }
      exists n'. by rewrite Hn'.
Qed.

Lemma probe_adopts cand rest c pr :
  answers (base c ++ read cand)%string (Fetched pr) ->
  ok pr = true ->
  exists n,
    probe (cand :: rest) c
    = (Some pr,
       {| base := base c; readPath := read cand; writePath := write cand;
          readUrl := (base c ++ read cand)%string;
          writeUrl := (base c ++ write cand)%string; net := n |}).
Proof.
  intros Hans Hok. cbn [probe]. specialize (Hans (net c)).
  destruct (fetch (net c) "GET" (base c ++ read cand)%string None) as [fr n].
  cbn [fst] in Hans. subst fr. rewrite Hok. by exists n.
Qed.

(** C9, as the code has it.  When the first fetch of the read endpoint
    answers 404:
    - if [cand] is the first candidate, in the fixed order of
      [probeCandidates], whose read endpoint answers with [ok], the client
      adopts the pair (read and write path, read and write URL) and streams
      the body of that answer;
    - if no candidate answers with [ok], the endpoints stay as they were and
      the body of the 404 answer is streamed: this throws only when that
      answer has no body, and otherwise yields the lines of it that parse. *)
Theorem probing_after_not_found (c : Client) (res : Response)
  (n0 : NetState) :
  fetch (net c) "GET" (readUrl c) None = (Fetched res, n0) ->
  status res = 404%Z ->
  (forall pre cand post pr,
      probeCandidates = pre ++ cand :: post ->
      (forall cand', In cand' pre -> never_ok (base c ++ read cand')%string) ->
      answers (base c ++ read cand)%string (Fetched pr) ->
      ok pr = true ->
      let '(out, c') := messages c in
      out = stream_body pr
      /\ base c' = base c
      /\ readPath c' = read cand /\ writePath c' = write cand
      /\ readUrl c' = (base c ++ read cand)%string
      /\ writeUrl c' = (base c ++ write cand)%string)
  /\ ((forall cand, In cand probeCandidates ->
         never_ok (base c ++ read cand)%string) ->
      let '(out, c') := messages c in
      out = stream_body res
      /\ same_endpoints c c'
      /\ (forall chunks, body res = Some chunks ->
            out = Yielded (read_chunks chunks EmptyString))
      /\ (body res = None ->
            out = StreamThrew "No response body for streaming")).
Proof.
  intros Hfetch H404. split.
  - intros pre cand post pr Hsplit Hpre Hans Hok.
    unfold messages, open_stream. rewrite Hfetch, H404. cbn [Z.eqb Pos.eqb].
    rewrite Hsplit.
    destruct (probe_skips pre (cand :: post) (with_net c n0)) as [n1 Hn1].
    { exact Hpre. }
    rewrite Hn1.
    destruct (probe_adopts cand post (with_net (with_net c n0) n1) pr)
      as [n2 Hn2]; [exact Hans|exact Hok|].
    rewrite Hn2. by repeat split.
  - intros Hnone.
    unfold messages, open_stream. rewrite Hfetch, H404. cbn [Z.eqb Pos.eqb].
    destruct (probe_skips probeCandidates [] (with_net c n0)) as [n1 Hn1].
    { exact Hnone. }
    rewrite app_nil_r in Hn1. rewrite Hn1. cbn [probe].
    split; [reflexivity|]. split; [exact (same_endpoints_with_net c n1)|].
    unfold stream_body. split.
    + by intros chunks ->.
    + by intros ->.
Qed.

End WithNetwork.

Example events_server_stream :
  let c := @streamableHttpClient EventsServer default_options tt in
  let '(out, c') := @messages EventsServer c in
  out = Yielded ["{a}"; "{b}"; "{c}"]
  /\ readUrl c' = "http://h/events" /\ writeUrl c' = "http://h/send".
Proof. vm_compute. auto. Qed.

Lemma probing_after_not_found_witness :
  let cA := @streamableHttpClient EventsServer default_options tt in
  let cB := @streamableHttpClient NoServer default_options tt in
  (let '(out, c') := @messages EventsServer cA in
   out = @stream_body EventsServer events_stream
   /\ base c' = base cA
   /\ readPath c' = "/events" /\ writePath c' = "/send"
   /\ readUrl c' = (base cA ++ "/events")%string
   /\ writeUrl c' = (base cA ++ "/send")%string)
  /\
  (let '(out, c') := @messages NoServer cB in
   out = @stream_body NoServer not_found
   /\ same_endpoints cB c'
   /\ (forall chunks, body not_found = Some chunks ->
         out = Yielded (@read_chunks NoServer chunks EmptyString))
   /\ (body not_found = None ->
         out = StreamThrew "No response body for streaming")).
Proof.
  cbv zeta. split.
  - refine (proj1 (@probing_after_not_found EventsServer
             (@streamableHttpClient EventsServer default_options tt)
             not_found tt eq_refl eq_refl)
             [ {| read := "/read"; write := "/write" |};
               {| read := "/stream/read"; write := "/stream/write" |} ]
             {| read := "/events"; write := "/send" |} []
             events_stream eq_refl _ _ eq_refl).
    + intros cand' [<-|[<-|[]]] n; vm_compute; auto.
    + intros n. reflexivity.
  - refine (proj2 (@probing_after_not_found NoServer
             (@streamableHttpClient NoServer default_options tt)
             not_found tt eq_refl eq_refl) _).
    intros cand _ n. reflexivity.
Defined.

(** C9 fails as stated: when the read endpoint and every alternate answer
    404, the stream does not fail; it reads the body of the first 404 answer,
    yields nothing and ends. *)
Lemma no_endpoint_yields_nothing :
  let c := @streamableHttpClient NoServer default_options tt in
  fst (@open_stream NoServer c) = Some not_found
  /\ fst (@messages NoServer c) = Yielded []
  /\ same_endpoints c (snd (@messages NoServer c)).
Proof. vm_compute. auto 10. Qed.

(** *** Reading the stream *)

Section Reading.

Context `{Network}.

Lemma drain_one_line s : one_line s = true -> drain s = ([], s).
Proof.
  induction s as [|ch s IH]; [done|]. unfold one_line. cbn [JS.all_chars].
  intros Hs. apply andb_true_iff in Hs as [Hch Hs].
  apply negb_true_iff in Hch. cbn [drain]. rewrite (IH Hs). by rewrite Hch.
Qed.

Lemma drain_tail s : one_line (snd (drain s)) = true.
Proof.
  induction s as [|ch s IH]; [done|]. cbn [drain].
  destruct (drain s) as [lines tail]. cbn [snd] in IH.
  destruct (Ascii.eqb ch (ascii_of_nat 10)) eqn:Hch; [done|].
  destruct lines as [|l ls]; [|done].
  cbn [snd]. unfold one_line. cbn [JS.all_chars]. by rewrite Hch.
Qed.

(** Draining a text in two parts: the lines of the first part, then those
    of what the first part left followed by the second. *)
Lemma drain_app a b :
  drain (a ++ b)
  = (fst (drain a) ++ fst (drain (snd (drain a) ++ b)),
     snd (drain (snd (drain a) ++ b))).
Proof.
  induction a as [|ch a IH].
  - cbn [drain fst snd]. change ("" ++ b)%string with b. by destruct (drain b).
  - change (String ch a ++ b)%string with (String ch (a ++ b)).
    cbn [drain]. rewrite IH. destruct (drain a) as [la ta]. cbn [fst snd].
    destruct (Ascii.eqb ch (ascii_of_nat 10)) eqn:Hch.
    + cbn [fst snd]. by destruct (drain (ta ++ b)).
    + destruct la as [|l ls].
      * cbn [app fst snd].
        change (String ch ta ++ b)%string with (String ch (ta ++ b)).
        cbn [drain]. rewrite Hch.
        destruct (drain (ta ++ b)) as [[|l ls] tb]; done.
      * cbn [app fst snd]. by destruct (drain (ta ++ b)).
Qed.

(** What is read from the chunks is what the lines of their concatenation
    give. *)
Lemma read_chunks_concat chunks : forall buffer,
  one_line buffer = true ->
  read_chunks chunks buffer
  = flat_map parse_line (fst (drain (buffer ++ String.concat "" chunks)))
    ++ parse_line (snd (drain (buffer ++ String.concat "" chunks))).
Proof.
  induction chunks as [|value rest IH]; intros buffer Hb.
  - cbn [read_chunks String.concat]. rewrite JSFacts.append_nil_r.
    by rewrite drain_one_line.
  - assert (String.concat "" (value :: rest)
            = (value ++ String.concat "" rest)%string) as ->.
    { destruct rest; [by rewrite JSFacts.append_nil_r|done]. }
    cbn [read_chunks]. rewrite <- JSFacts.append_assoc, (drain_app (buffer ++ value)).
    destruct (drain (buffer ++ value)) as [lines buffer'] eqn:Hd.
    cbn [fst snd]. rewrite IH.
    + by rewrite flat_map_app, <- (assoc_L (++)).
    + pose proof (drain_tail (buffer ++ value)) as Ht. by rewrite Hd in Ht.
Qed.

(** X7.  The messages read from a body depend on its text only, not on how the
    network cut it into chunks: two sequences of chunks with the same
    concatenation give the same messages.  A line, and a message, may be
    cut anywhere. *)
Theorem chunk_boundaries_do_not_matter (chunks chunks' : list string) :
  String.concat "" chunks = String.concat "" chunks' ->
  read_chunks chunks EmptyString = read_chunks chunks' EmptyString.
Proof.
  intros Heq. rewrite !read_chunks_concat by done. by rewrite Heq.
Qed.

Lemma parse_line_reads_back msg :
  reads_back msg -> parse_line (JSON_stringify msg) = [msg].
Proof. intros (_ & Ht & Hp). unfold parse_line. by rewrite Ht, Hp. Qed.

Lemma ndjson_cons msg msgs :
  ndjson (msg :: msgs) = (JSON_stringify msg ++ JS.LF ++ ndjson msgs)%string.
Proof.
  unfold ndjson. cbn [map]. destruct (map _ msgs) eqn:Hm; cbn [String.concat].
  - by rewrite JSFacts.append_nil_r.
  - by rewrite JSFacts.append_assoc.
Qed.

Lemma drain_line line rest :
  one_line line = true ->
  drain (line ++ JS.LF ++ rest)
  = (line :: fst (drain rest), snd (drain rest)).
Proof.
  intros Hone. induction line as [|ch line IH].
  - change ("" ++ JS.LF ++ rest)%string with (String (ascii_of_nat 10) rest).
    cbn [drain]. destruct (drain rest). by rewrite Ascii.eqb_refl.
  - unfold one_line in Hone. cbn [JS.all_chars] in Hone.
    apply andb_true_iff in Hone as [Hch Hone]. apply negb_true_iff in Hch.
    change (String ch line ++ JS.LF ++ rest)%string
      with (String ch (line ++ JS.LF ++ rest)).
    cbn [drain]. rewrite (IH Hone). by rewrite Hch.
Qed.

Lemma drain_ndjson msgs :
  Forall reads_back msgs ->
  drain (ndjson msgs) = (map JSON_stringify msgs, EmptyString).
Proof.
  induction 1 as [|msg msgs Hmsg _ IH]; [done|].
  destruct Hmsg as (Hone & _).
  by rewrite ndjson_cons, drain_line, IH.
Qed.

Lemma parse_lines_read_back msgs :
  Forall reads_back msgs ->
  flat_map parse_line (map JSON_stringify msgs) = msgs.
Proof.
  induction 1 as [|msg msgs Hmsg _ IH]; [done|].
  cbn [map flat_map]. by rewrite parse_line_reads_back, IH.
Qed.

(** X8.  What [send] writes can be read back: when the messages [msgs], each
    written by [JSON.stringify] on a line of its own, come back as the body
    of the stream, in whatever chunks, the stream yields exactly [msgs], in
    order.  ([JSON.stringify] without indentation writes no line feed, and
    [JSON.parse] gives back what it wrote: [reads_back].) *)
Theorem ndjson_round_trip (msgs : list Json) (chunks : list string) :
  Forall reads_back msgs ->
  String.concat "" chunks = ndjson msgs ->
  read_chunks chunks EmptyString = msgs.
Proof.
  intros Hmsgs Hchunks. rewrite read_chunks_concat by done.
  change ("" ++ String.concat "" chunks)%string with (String.concat "" chunks).
  rewrite Hchunks, drain_ndjson by done.
  cbn [fst snd]. rewrite parse_lines_read_back by done.
  unfold parse_line. cbn. apply app_nil_r.
Qed.

End Reading.

Lemma chunk_boundaries_do_not_matter_witness :
  @read_chunks EventsServer
    ["{a}" ++ JS.LF ++ "  " ++ JS.LF ++ "{b"; "}" ++ JS.LF ++ "oops" ++ JS.LF ++ "{c}"]%string
    EmptyString
  = @read_chunks EventsServer
      ["{a"; "}" ++ JS.LF ++ "  " ++ JS.LF; "{b}" ++ JS.LF ++ "oo"; "ps" ++ JS.LF ++ "{c}"]%string
      EmptyString.
Proof.
  apply (@chunk_boundaries_do_not_matter EventsServer). reflexivity.
Defined.

Lemma ndjson_round_trip_witness :
  @read_chunks EventsServer ["{a"; "}" ++ JS.LF ++ "{b}"; JS.LF]%string EmptyString
  = ["{a}"; "{b}"].
Proof.
  apply (@ndjson_round_trip EventsServer ["{a}"; "{b}"]).
  - repeat constructor.
  - reflexivity.
Defined.

(** *** What the stream fails on *)

Section Failures.

Context `{Network}.

Lemma probe_result cands : forall c,
  let '(r, c') := probe cands c in
  base c' = base c
  /\ match r with
     | None => same_endpoints c c'
     | Some pr =>
         exists cand,
           In cand cands
           /\ readPath c' = read cand /\ writePath c' = write cand
           /\ readUrl c' = (base c ++ read cand)%string
           /\ writeUrl c' = (base c ++ write cand)%string
     end.
Proof.
  induction cands as [|cand rest IH]; intros c; cbn [probe].
  - split; [done|]. by repeat split.
  - destruct (fetch (net c) "GET" (base c ++ read cand)%string None)
      as [[pr|] n].
    + destruct (ok pr).
      * split; [done|]. exists cand. split; [by left|done].
      * specialize (IH (with_net c n)).
        destruct (probe rest (with_net c n)) as [[pr'|] c'];
          destruct IH as [Hb IH]; (split; [exact Hb|]).
        -- destruct IH as (cand' & Hin & IH). exists cand'.
           split; [by right|exact IH].
        -- exact IH.
    + specialize (IH (with_net c n)).
      destruct (probe rest (with_net c n)) as [[pr'|] c'];
        destruct IH as [Hb IH]; (split; [exact Hb|]).
      * destruct IH as (cand' & Hin & IH). exists cand'.
        split; [by right|exact IH].
      * exact IH.
Qed.

(** X9.  Opening the stream and reading a body that is delivered to its end
    fails in two ways only.  It rejects when the request for the read
    endpoint itself throws, and only then; and once that request is
    answered, the one error it throws is that of a response without a body.
    No status of a response makes it fail (the body of a 500 or a 401 is
    read as the stream: a status other than 404 is streamed at once), and a
    request for an alternate endpoint that throws is passed over. *)
Theorem stream_fails_on_no_body_only (c : Client) :
  (fst (messages c) = FetchRejected
   <-> fst (fetch (net c) "GET" (readUrl c) None) = FetchThrew)
  /\ (forall message,
        fst (messages c) = StreamThrew message ->
        message = "No response body for streaming")
  /\ (forall res n,
        fetch (net c) "GET" (readUrl c) None = (Fetched res, n) ->
        status res <> 404%Z ->
        messages c = (stream_body res, with_net c n)).
Proof.
  unfold messages, open_stream.
  destruct (fetch (net c) "GET" (readUrl c) None) as [[res|] n]; cbn [fst].
  - assert (forall r : Response, stream_body r <> FetchRejected) as Hnot.
    { intros r. unfold stream_body. by destruct (body r). }
    assert (forall (r : Response) message,
              stream_body r = StreamThrew message ->
              message = "No response body for streaming") as Hthrew.
    { intros r message. unfold stream_body.
      destruct (body r); [discriminate|]. by intros [= <-]. }
    split; [|split].
    + split; [|discriminate].
      destruct (status res =? 404)%Z; [|by intros ?%Hnot].
      destruct (probe probeCandidates (with_net c n)) as [[pr|] c'];
        by intros ?%Hnot.
    + intros message.
      destruct (status res =? 404)%Z; [|by apply Hthrew].
      destruct (probe probeCandidates (with_net c n)) as [[pr|] c'];
        by apply Hthrew.
    + intros res' n' [= <- <-] Hstatus.
      by destruct (Z.eqb_spec (status res) 404).
  - split; [done|]. split; [discriminate|]. discriminate.
Qed.

(** *** The endpoints of the client *)

Lemma messages_endpoints c :
  let c' := snd (messages c) in
  base c' = base c
  /\ (same_endpoints c c'
      \/ exists cand,
           In cand probeCandidates
           /\ readPath c' = read cand /\ writePath c' = write cand
           /\ readUrl c' = (base c ++ read cand)%string
           /\ writeUrl c' = (base c ++ write cand)%string).
Proof.
  cbn zeta. unfold messages, open_stream.
  destruct (fetch (net c) "GET" (readUrl c) None) as [[res|] n].
  - destruct (status res =? 404)%Z.
    + pose proof (probe_result probeCandidates (with_net c n)) as Hp.
      destruct (probe probeCandidates (with_net c n)) as [[pr|] c'].
      * destruct Hp as [Hb Hp]. cbn [snd]. split; [exact Hb|]. by right.
      * destruct Hp as [Hb Hp]. cbn [snd]. split; [exact Hb|]. by left.
    + cbn [snd]. split; [done|]. left. apply same_endpoints_with_net.
  - cbn [snd]. split; [done|]. left. apply same_endpoints_with_net.
Qed.

(** X10.  Whatever is done with the client (streams opened, messages sent, the
    transport closed, in any order and number), the base is the configured
    one less its trailing slash; the read URL and the write URL are the base
    followed by the read path and by the write path; and the two paths are
    either the configured ones (with their defaults) or those of one and the
    same alternate pair: they are never mixed. *)
Theorem endpoints_switch_together
  (opts : CreateOptions) (n : NetState) (ops : list Op) :
  let c := after ops (streamableHttpClient opts n) in
  base c = JS.strip_trailing_slash (baseUrl opts)
  /\ readUrl c = (base c ++ readPath c)%string
  /\ writeUrl c = (base c ++ writePath c)%string
  /\ ((readPath c = JS.or_else (opt_readPath opts) "/read"
       /\ writePath c = JS.or_else (opt_writePath opts) "/write")
      \/ In {| read := readPath c; write := writePath c |} probeCandidates).
Proof.
  cbn zeta.
  set (I := fun c : Client =>
    base c = JS.strip_trailing_slash (baseUrl opts)
    /\ readUrl c = (base c ++ readPath c)%string
    /\ writeUrl c = (base c ++ writePath c)%string
    /\ ((readPath c = JS.or_else (opt_readPath opts) "/read"
         /\ writePath c = JS.or_else (opt_writePath opts) "/write")
        \/ In {| read := readPath c; write := writePath c |} probeCandidates)).
  change (I (after ops (streamableHttpClient opts n))).
  assert (I (streamableHttpClient opts n)) as Hinit.
  { unfold I, streamableHttpClient. cbn. split; [done|]. split; [done|].
    split; [done|]. by left. }
  assert (forall c op, I c -> I (apply_op c op)) as Hstep.
  { intros c op (Hb & Hr & Hw & Hp). destruct op as [|msg|]; cbn [apply_op].
    - destruct (messages_endpoints c) as [Hb' [Hsame|Hcand]].
      + destruct Hsame as (_ & Hrp & Hwp & Hru & Hwu).
        unfold I. rewrite Hb', Hrp, Hwp, Hru, Hwu. done.
      + destruct Hcand as (cand & Hin & Hrp & Hwp & Hru & Hwu).
        unfold I. rewrite Hb', Hrp, Hwp, Hru, Hwu.
        split; [done|]. split; [done|]. split; [done|]. right.
        by destruct cand.
    - unfold send.
      destruct (fetch (net c) "POST" (writeUrl c) (Some (JSON_stringify msg)))
        as [r n']. cbn [snd]. done.
    - done. }
  unfold after. generalize (streamableHttpClient opts n) Hinit.
  induction ops as [|op ops IH]; intros c Hc; [exact Hc|].
  cbn [fold_left]. apply IH. by apply Hstep.
Qed.

(** *** The requests of the probing *)

Lemma fetch_all_app urls urls' n :
  fetch_all (urls ++ urls') n = fetch_all urls' (fetch_all urls n).
Proof. apply fold_left_app. Qed.

Lemma fetch_all_one url n :
  fetch_all [url] n = snd (fetch n "GET" url None).
Proof. reflexivity. Qed.

Lemma probe_skips_requests pre rest : forall c,
  (forall cand, In cand pre -> never_ok (base c ++ read cand)%string) ->
  probe (pre ++ rest) c
  = probe rest
      (with_net c
         (fetch_all (map (fun cand => (base c ++ read cand)%string) pre)
            (net c))).
Proof.
  induction pre as [|cand pre IH]; intros c Hpre.
  - cbn [app map fetch_all fold_left]. by destruct c.
  - cbn [app probe map].
    pose proof (Hpre cand (or_introl eq_refl) (net c)) as Hc.
    assert (probe (pre ++ rest)
              (with_net c (snd (fetch (net c) "GET" (base c ++ read cand)%string None)))
            = probe rest
                (with_net c
                   (fetch_all
                      ((base c ++ read cand)%string
                       :: map (fun cand => (base c ++ read cand)%string) pre)
                      (net c)))) as Hrest.
    { rewrite IH; [done|]. intros cand' Hin. apply Hpre. by right. }
    destruct (fetch (net c) "GET" (base c ++ read cand)%string None)
      as [[pr|] n]; cbn [fst snd] in *; [by rewrite Hc|done].
Qed.

(** X11.  The probing asks for the alternate read endpoints in their fixed order
    and stops at the first that answers with [ok]: after a 404 on the read
    endpoint, the network is as the requests for the alternates up to and
    including the adopted one leave it, and the alternates after the adopted
    one are not asked for. *)
Theorem probing_stops_at_first_ok
  (c : Client) (res : Response) (n0 : NetState)
  (pre post : list Endpoints) (cand : Endpoints) (pr : Response) :
  fetch (net c) "GET" (readUrl c) None = (Fetched res, n0) ->
  status res = 404%Z ->
  probeCandidates = pre ++ cand :: post ->
  (forall cand', In cand' pre -> never_ok (base c ++ read cand')%string) ->
  answers (base c ++ read cand)%string (Fetched pr) ->
  ok pr = true ->
  net (snd (messages c))
  = fetch_all
      (map (fun cand => (base c ++ read cand)%string) (pre ++ [cand])) n0.
Proof.
  intros Hfetch H404 Hsplit Hpre Hans Hok.
  unfold messages, open_stream. rewrite Hfetch, H404. cbn [Z.eqb Pos.eqb].
  rewrite Hsplit, (probe_skips_requests pre (cand :: post)) by exact Hpre.
  cbn [base net with_net].
  rewrite map_app, fetch_all_app. cbn [map].
  set (n1 := fetch_all _ n0). rewrite fetch_all_one.
  cbn [probe base net with_net]. specialize (Hans n1).
  destruct (fetch n1 "GET" (base c ++ read cand)%string None) as [fr n2].
  cbn [fst] in Hans. subst fr. rewrite Hok. reflexivity.
Qed.

End Failures.

Lemma probing_stops_at_first_ok_witness :
  let c := @streamableHttpClient EventsServer default_options tt in
  net (snd (@messages EventsServer c))
  = @fetch_all EventsServer
      ["http://h/read"; "http://h/stream/read"; "http://h/events"] tt.
Proof.
  refine (@probing_stops_at_first_ok EventsServer
            (@streamableHttpClient EventsServer default_options tt)
            not_found tt
            [ {| read := "/read"; write := "/write" |};
              {| read := "/stream/read"; write := "/stream/write" |} ]
            [] {| read := "/events"; write := "/send" |}
            events_stream eq_refl eq_refl eq_refl _ _ eq_refl).
  - intros cand' [<-|[<-|[]]] n; vm_compute; auto.
  - intros n. reflexivity.
Defined.

End TransportFacts.

(* ===================================================================== *)
(** ** Facts: src/cli.ts: model fallback and the orchestration loop *)
(* ===================================================================== *)

Module CliFacts.

Import Cli.

Local Open Scope list_scope.

(** *** Facts on the set and array operations *)

Lemma set_has_In x s : set_has x s = true <-> In x s.
Proof.
  unfold set_has. rewrite existsb_exists. split.
  - intros (y & Hy & Hxy). apply String.eqb_eq in Hxy. by subst.
  - intros Hx. exists x. split; [done|apply String.eqb_refl].
Qed.

Lemma set_has_false x s : set_has x s = false <-> ~ In x s.
Proof.
  rewrite <- set_has_In. destruct (set_has x s); split; congruence.
Qed.

Lemma set_add_In x y s : In x (set_add y s) <-> x = y \/ In x s.
Proof.
  unfold set_add. destruct (set_has y s) eqn:Hy.
  - apply set_has_In in Hy. split; [auto|]. intros [->|]; auto.
  - rewrite in_app_iff. simpl. split; [intros [|[|[]]]|intros [|]]; auto.
Qed.

Lemma set_has_add x y s :
  set_has x (set_add y s) = String.eqb x y || set_has x s.
Proof.
  apply eq_true_iff_eq. rewrite orb_true_iff, !set_has_In, set_add_In.
  by rewrite String.eqb_eq.
Qed.

Lemma set_add_incl y s : incl s (set_add y s).
Proof. intros x Hx. apply set_add_In. by right. Qed.

Lemma indexOf_app_fresh x pre rest :
  ~ In x pre -> indexOf x (pre ++ x :: rest) = Some (length pre).
Proof.
  induction pre as [|y pre IH]; intros Hx; simpl.
  - by rewrite String.eqb_refl.
  - destruct (String.eqb_spec y x) as [->|Hne]; [destruct Hx; by left|].
    rewrite IH; auto. intros Hin. apply Hx. by right.
Qed.

Lemma indexOf_app_seen x pre rest :
  In x pre -> exists i, indexOf x (pre ++ rest) = Some i /\ i < length pre.
Proof.
  induction pre as [|y pre IH]; intros Hx; simpl; [destruct Hx|].
  destruct (String.eqb_spec y x) as [->|Hne].
  - exists 0. split; [done|lia].
  - destruct Hx as [?|Hx]; [done|].
    destruct (IH Hx) as (i & -> & Hi). exists (S i). split; [done|lia].
Qed.

(** Keeping the first occurrences does not change what [find] finds. *)
Lemma find_first_occurrences (p : string -> bool) suf : forall pre,
  (forall x, In x pre -> p x = false) ->
  find p
    (filter_indexed
       (fun m i => match indexOf m (pre ++ suf) with
                   | Some j => Nat.eqb j i
                   | None => false
                   end)
       (length pre) suf)
  = find p suf.
Proof.
  induction suf as [|m rest IH]; intros pre Hpre; [reflexivity|].
  cbn [filter_indexed find].
  assert (forall x, In x (pre ++ [m]) -> p m = false -> p x = false) as Hext.
  { intros x Hx Hm. apply in_app_iff in Hx as [Hx|[<-|[]]]; auto. }
  specialize (IH (pre ++ [m])).
  rewrite <- (assoc_L (++)), length_app in IH. cbn [app length] in IH.
  replace (length pre + 1) with (S (length pre)) in IH by lia.
  destruct (in_dec string_dec m pre) as [Hin|Hnin].
  - destruct (indexOf_app_seen m pre (m :: rest) Hin) as (i & -> & Hi).
    destruct (Nat.eqb_spec i (length pre)) as [?|_]; [lia|].
    pose proof (Hpre m Hin) as Hm. rewrite Hm. apply IH. eauto.
  - rewrite indexOf_app_fresh by done. rewrite Nat.eqb_refl.
    cbn [find]. destruct (p m) eqn:Hm; [done|]. apply IH. eauto.
Qed.

Lemma find_rotation (p : string -> bool) model :
  find p (rotation model) = find p (model :: DEFAULT_MODEL_CANDIDATES).
Proof.
  unfold rotation.
  apply (find_first_occurrences p (model :: DEFAULT_MODEL_CANDIDATES) []).
  intros x [].
Qed.

Lemma find_filter_hd (p : string -> bool) l :
  find p l = hd_error (List.filter p l).
Proof.
  induction l as [|x l IH]; simpl; [done|]. by destruct (p x).
Qed.

Lemma DEFAULT_MODEL_CANDIDATES_NoDup : List.NoDup DEFAULT_MODEL_CANDIDATES.
Proof.
  unfold DEFAULT_MODEL_CANDIDATES.
  repeat (apply List.NoDup_cons; [simpl; intuition discriminate|]).
  apply List.NoDup_nil.
Qed.

Lemma DEFAULT_MODEL_CANDIDATES_truthy :
  forall m, In m DEFAULT_MODEL_CANDIDATES -> JS.truthy m = true.
Proof.
  intros m H. unfold DEFAULT_MODEL_CANDIDATES in H.
  repeat destruct H as [<-|H]; try reflexivity. destruct H.
Qed.

Lemma filter_after_first (p : string -> bool) n l : forall rest,
  List.NoDup l ->
  List.filter p l = n :: rest ->
  List.filter (fun m => negb (String.eqb m n) && p m) l = rest.
Proof.
  induction l as [|x l IH]; intros rest Hnd Hf; [discriminate|].
  apply List.NoDup_cons_iff in Hnd as [Hx Hnd]. cbn [List.filter] in *.
  destruct (p x) eqn:Hpx.
  - injection Hf as -> <-. rewrite String.eqb_refl. cbn [negb andb].
    apply filter_ext_in. intros y Hy.
    destruct (String.eqb_spec y n) as [->|]; [done|reflexivity].
  - rewrite andb_false_r. by apply IH.
Qed.

Section WithPlatform.

Context `{Platform}.

Notation "x <- c1 ;; c2" := (bind c1 (fun x => c2))
  (at level 100, c1 at next level, right associativity).

Lemma runAnthropic_fuel_try_in_order fuel : forall msgs model k w,
  length (List.filter
            (fun m => negb (set_has m (set_add model (failedModels w))))
            DEFAULT_MODEL_CANDIDATES) < fuel ->
  runAnthropic_fuel fuel msgs model k w
  = try_in_order msgs k (candidates model (failedModels w)) w.
Proof.
  induction fuel as [|fuel IH]; intros msgs model k w Hfuel; [lia|].
  cbn [runAnthropic_fuel candidates try_in_order].
  unfold try_catch, messages_create.
  destruct (create (backend w) model k msgs) as [[content|err] b]; [done|].
  destruct (is_not_found err); [|done].
  unfold bind, failedModels_add, get_failedModels. cbn [failedModels].
  set (F := set_add model (failedModels w)) in *.
  set (w1 := {| backend := b; server := server w; failedModels := F;
                log := log w ++ [Attempt model] |}).
  rewrite find_rotation. cbn [find].
  assert (set_has model F = true) as Hmodel.
  { apply set_has_In, set_add_In. by left. }
  rewrite Hmodel. cbn [negb]. rewrite find_filter_hd.
  destruct (List.filter (fun m => negb (set_has m F)) DEFAULT_MODEL_CANDIDATES)
    as [|next rest] eqn:Hfilter; [done|].
  cbn [hd_error].
  assert (In next DEFAULT_MODEL_CANDIDATES) as Hnext.
  { assert (In next (next :: rest)) as Hin by by left.
    rewrite <- Hfilter in Hin. by apply filter_In in Hin as [? _]. }
  rewrite (DEFAULT_MODEL_CANDIDATES_truthy next Hnext).
  assert (List.filter (fun m => negb (set_has m (set_add next F)))
            DEFAULT_MODEL_CANDIDATES = rest) as Hrest.
  { rewrite <- (filter_after_first _ next _ rest
                  DEFAULT_MODEL_CANDIDATES_NoDup Hfilter).
    apply filter_ext. intros m. by rewrite set_has_add, negb_orb. }
  rewrite IH.
  - unfold candidates. cbn [failedModels]. by rewrite Hrest.
  - cbn [failedModels]. rewrite Hrest. cbn [length] in Hfuel. lia.
Qed.

(** [runAnthropic] as the loop over its candidates. *)
Lemma runAnthropic_try_in_order msgs model k w :
  runAnthropic msgs model k w
  = try_in_order msgs k (candidates model (failedModels w)) w.
Proof.
  apply runAnthropic_fuel_try_in_order.
  pose proof (filter_length_le
    (fun m => negb (set_has m (set_add model (failedModels w))))
    DEFAULT_MODEL_CANDIDATES).
  simpl in *. lia.
Qed.

Lemma try_in_order_fuel msgs k cands : forall w,
  fst (try_in_order msgs k cands w) <> OutOfFuel.
Proof.
  induction cands as [|c cands IH]; intros w; [done|].
  cbn [try_in_order]. unfold try_catch, messages_create.
  destruct (create (backend w) c k msgs) as [[content|err] b]; [done|].
  destruct (is_not_found err); [|done].
  unfold bind, failedModels_add. apply IH.
Qed.

(** The fuel of [runAnthropic] never runs out. *)
Lemma runAnthropic_total msgs model k w :
  fst (runAnthropic msgs model k w) <> OutOfFuel.
Proof. rewrite runAnthropic_try_in_order. apply try_in_order_fuel. Qed.

Lemma exhaust_In ms : forall failed x,
  In x (exhaust ms failed) <-> In x failed \/ In x ms.
Proof.
  induction ms as [|m ms IH]; intros failed x; simpl.
  - tauto.
  - unfold exhaust in IH. rewrite IH, set_add_In.
    split; [intros [[->|?]|?]|intros [?|[->|?]]]; auto.
Qed.

Lemma exhaust_fresh ms : forall failed,
  List.NoDup ms -> (forall m, In m ms -> ~ In m failed) ->
  exhaust ms failed = failed ++ ms.
Proof.
  induction ms as [|m ms IH]; intros failed Hnd Hfresh; simpl.
  - by rewrite app_nil_r.
  - apply List.NoDup_cons_iff in Hnd as [Hm Hnd].
    assert (set_has m failed = false) as Hhas.
    { apply set_has_false, Hfresh. by left. }
    unfold exhaust in IH. unfold set_add at 1. rewrite Hhas.
    rewrite IH; auto.
    + by rewrite <- (assoc_L (++)).
    + intros x Hx Hin. apply in_app_iff in Hin as [Hin|[<-|[]]]; auto.
      apply (Hfresh x); auto. by right.
Qed.

Lemma try_in_order_accepted pre : forall w c rest content msgs k,
  (forall m, In m pre -> rejects m k msgs) ->
  accepts c k msgs content ->
  exists b,
    try_in_order msgs k (pre ++ c :: rest) w
    = (Ok content,
       {| backend := b; server := server w;
          failedModels := exhaust pre (failedModels w);
          log := log w ++ map Attempt (pre ++ [c]) |}).
Proof.
  induction pre as [|m pre IH]; intros w c rest content msgs k Hpre Hacc.
  - cbn [app try_in_order]. unfold try_catch, messages_create.
    specialize (Hacc (backend w)).
    destruct (create (backend w) c k msgs) as [r b]. cbn [fst] in Hacc.
    subst r. by exists b.
  - cbn [app try_in_order]. unfold try_catch, messages_create.
    destruct (Hpre m (or_introl eq_refl) (backend w)) as (err & Hr & Hnf).
    destruct (create (backend w) m k msgs) as [r b]. cbn [fst] in Hr.
    subst r. rewrite Hnf. unfold bind, failedModels_add.
    cbn [backend server failedModels log].
    set (w1 := {| backend := b; server := server w;
                  failedModels := set_add m (failedModels w);
                  log := log w ++ [Attempt m] |}).
    destruct (IH w1 c rest content msgs k) as [b' Hb'];
      [intros m' Hm'; apply Hpre; by right|exact Hacc|].
    rewrite Hb'. exists b'. subst w1.
    cbn [server failedModels log exhaust fold_left map app].
    by rewrite <- (assoc_L (++)).
Qed.

Lemma try_in_order_exhausted cands : forall w msgs k,
  (forall m, In m cands -> rejects m k msgs) ->
  exists b,
    try_in_order msgs k cands w
    = (Throw (JsError (unavailable_message (exhaust cands (failedModels w)))),
       {| backend := b; server := server w;
          failedModels := exhaust cands (failedModels w);
          log := log w ++ map Attempt cands |}).
Proof.
  induction cands as [|m cands IH]; intros w msgs k Hall.
  - exists (backend w). cbn. rewrite app_nil_r. by destruct w.
  - cbn [try_in_order]. unfold try_catch, messages_create.
    destruct (Hall m (or_introl eq_refl) (backend w)) as (err & Hr & Hnf).
    destruct (create (backend w) m k msgs) as [r b]. cbn [fst] in Hr.
    subst r. rewrite Hnf. unfold bind, failedModels_add.
    cbn [backend server failedModels log].
    set (w1 := {| backend := b; server := server w;
                  failedModels := set_add m (failedModels w);
                  log := log w ++ [Attempt m] |}).
    destruct (IH w1 msgs k) as [b' Hb'];
      [intros m' Hm'; apply Hall; by right|].
    rewrite Hb'. exists b'. subst w1.
    cbn [server failedModels log exhaust fold_left map app].
    by rewrite <- (assoc_L (++)).
Qed.

(** A model the backend has is asked once, and nothing is exhausted. *)
Lemma runAnthropic_created msgs model k w content b :
  create (backend w) model k msgs = (Created content, b) ->
  runAnthropic msgs model k w
  = (Ok content,
     {| backend := b; server := server w; failedModels := failedModels w;
        log := log w ++ [Attempt model] |}).
Proof.
  intros Hc. rewrite runAnthropic_try_in_order.
  cbn [candidates try_in_order]. unfold try_catch, messages_create.
  by rewrite Hc.
Qed.

Lemma rotation_head model :
  rotation model
  = model :: List.filter (fun m => negb (String.eqb m model))
               DEFAULT_MODEL_CANDIDATES.
Proof.
  unfold rotation, DEFAULT_MODEL_CANDIDATES.
  cbn [filter_indexed indexOf List.filter].
  rewrite String.eqb_refl. cbn [Nat.eqb].
  rewrite !(String.eqb_sym _ model).
  destruct (String.eqb model "claude-3-5-sonnet-20241022") eqn:E1;
  destruct (String.eqb model "claude-sonnet-4-20250514") eqn:E2;
  destruct (String.eqb model "claude-3-5-sonnet-latest") eqn:E3;
    try reflexivity;
    repeat match goal with
    | E : String.eqb model _ = true |- _ => apply String.eqb_eq in E
    end; congruence.
Qed.

Lemma candidates_rotation model failed :
  candidates model failed
  = model :: List.filter (fun m => negb (set_has m failed))
               (tl (rotation model)).
Proof.
  rewrite rotation_head. cbn [tl]. unfold candidates. f_equal.
  induction DEFAULT_MODEL_CANDIDATES as [|d l IH]; [done|].
  cbn [List.filter]. rewrite set_has_add, negb_orb.
  destruct (negb (String.eqb d model)); cbn [andb List.filter]; rewrite IH;
    reflexivity.
Qed.

Lemma rotation_NoDup model : List.NoDup (rotation model).
Proof.
  rewrite rotation_head. apply List.NoDup_cons.
  - intros Hin. apply filter_In in Hin as [_ Hin].
    by rewrite String.eqb_refl in Hin.
  - apply List.NoDup_filter, DEFAULT_MODEL_CANDIDATES_NoDup.
Qed.

Lemma candidates_NoDup model failed : List.NoDup (candidates model failed).
Proof.
  unfold candidates. apply List.NoDup_cons.
  - intros Hin. apply filter_In in Hin as [_ Hin].
    apply negb_true_iff, set_has_false in Hin. apply Hin, set_add_In. by left.
  - apply List.NoDup_filter, DEFAULT_MODEL_CANDIDATES_NoDup.
Qed.

(** The models one call attempts are the first ones of its candidates. *)
Lemma try_in_order_log msgs k cands : forall w,
  exists ms rest,
    cands = ms ++ rest
    /\ log (snd (try_in_order msgs k cands w)) = log w ++ map Attempt ms.
Proof.
  induction cands as [|c cands IH]; intros w.
  - exists [], []. split; [done|]. cbn. by rewrite app_nil_r.
  - cbn [try_in_order]. unfold try_catch, messages_create.
    destruct (create (backend w) c k msgs) as [[content|err] b].
    + exists [c], cands. by split.
    + destruct (is_not_found err).
      * unfold bind, failedModels_add. cbn [backend server failedModels log].
        set (w1 := {| backend := b; server := server w;
                      failedModels := set_add c (failedModels w);
                      log := log w ++ [Attempt c] |}).
        destruct (IH w1) as (ms & rest & -> & Hlog).
        exists (c :: ms), rest. split; [done|]. rewrite Hlog. subst w1.
        cbn [log map]. by rewrite <- (assoc_L (++)).
      * exists [c], cands. by split.
Qed.

Lemma runAnthropic_log msgs model k w :
  exists ms,
    log (snd (runAnthropic msgs model k w)) = log w ++ map Attempt ms
    /\ List.NoDup ms
    /\ (forall m, In m ms -> m = model \/ ~ In m (failedModels w)).
Proof.
  rewrite runAnthropic_try_in_order.
  destruct (try_in_order_log msgs k (candidates model (failedModels w)) w)
    as (ms & rest & Hsplit & Hlog).
  exists ms. split; [exact Hlog|].
  pose proof (candidates_NoDup model (failedModels w)) as Hnd.
  rewrite Hsplit in Hnd. split; [by apply NoDup_app_remove_r in Hnd|].
  intros m Hm.
  assert (In m (candidates model (failedModels w))) as Hin.
  { rewrite Hsplit. apply in_app_iff. by left. }
  destruct Hin as [<-|Hin]; [by left|right].
  apply filter_In in Hin as [_ Hin].
  apply negb_true_iff, set_has_false in Hin.
  intros Hf. apply Hin, set_add_In. by right.
Qed.

Lemma grows_ret {A} (a : A) : grows (ret a).
Proof. intros w. apply incl_refl. Qed.

Lemma grows_throw {A} e : grows (throw (A:=A) e).
Proof. intros w. apply incl_refl. Qed.

Lemma grows_bind {A C} (m : M A) (k : A -> M C) :
  grows m -> (forall a, grows (k a)) -> grows (bind m k).
Proof.
  intros Hm Hk w. unfold bind. specialize (Hm w).
  destruct (m w) as [[a|e|] w']; cbn [snd] in *; auto.
  eapply incl_tran; [exact Hm|apply Hk].
Qed.

Lemma grows_try_catch {A} (m : M A) (h : Thrown -> M A) :
  grows m -> (forall e, grows (h e)) -> grows (try_catch m h).
Proof.
  intros Hm Hh w. unfold try_catch. specialize (Hm w).
  destruct (m w) as [[a|e|] w']; cbn [snd] in *; auto.
  eapply incl_tran; [exact Hm|apply Hh].
Qed.

Lemma grows_messages_create model k msgs : grows (messages_create model k msgs).
Proof.
  intros w. unfold messages_create.
  destruct (create (backend w) model k msgs) as [[content|err] b];
    apply incl_refl.
Qed.

Lemma grows_callTool name args : grows (callTool name args).
Proof.
  intros w. unfold callTool.
  destruct (call_tool (server w) name args) as [[content|err] s'];
    apply incl_refl.
Qed.

Lemma grows_try_in_order msgs k cands : grows (try_in_order msgs k cands).
Proof.
  induction cands as [|c cands IH]; cbn [try_in_order].
  - apply grows_bind; [intros w; apply incl_refl|intros; apply grows_throw].
  - apply grows_try_catch; [apply grows_messages_create|].
    intros e. destruct (is_not_found e); [|apply grows_throw].
    apply grows_bind; [|intros _; exact IH].
    intros w. apply set_add_incl.
Qed.

Lemma grows_runAnthropic msgs model k : grows (runAnthropic msgs model k).
Proof.
  intros w. rewrite runAnthropic_try_in_order. apply grows_try_in_order.
Qed.

Lemma grows_use_tool name input q : grows (use_tool name input q).
Proof.
  unfold use_tool. apply grows_try_catch.
  - apply grows_bind; [apply grows_callTool|intros; apply grows_ret].
  - intros e. apply grows_ret.
Qed.

Lemma grows_process_content blocks : forall used q,
  grows (process_content blocks used q).
Proof.
  induction blocks as [|[text|name input|] blocks IH]; intros used q;
    cbn [process_content]; auto using grows_ret.
  apply grows_bind; [apply grows_use_tool|auto].
Qed.

Lemma grows_safety_loop opts rounds : forall response q,
  grows (safety_loop opts rounds response q).
Proof.
  induction rounds as [|rounds IH]; intros response q; cbn [safety_loop];
    [apply grows_ret|].
  apply grows_bind; [apply grows_process_content|].
  intros [usedTool q']. destruct usedTool; cbn [negb]; [|apply grows_ret].
  apply grows_bind; [apply grows_runAnthropic|auto].
Qed.

Lemma grows_processQuery opts query : grows (processQuery opts query).
Proof.
  unfold processQuery. apply grows_bind; [apply grows_runAnthropic|].
  intros response. apply grows_bind; [apply grows_safety_loop|].
  intros q. apply grows_ret.
Qed.

Lemma grows_answer opts q : grows (answer opts q).
Proof.
  unfold answer. apply grows_try_catch.
  - apply grows_bind; [apply grows_processQuery|intros; apply grows_ret].
  - intros e. apply grows_ret.
Qed.

Lemma grows_session opts queries : grows (session opts queries).
Proof.
  induction queries as [|q queries IH]; cbn [session]; [apply grows_ret|].
  apply grows_bind; [apply grows_answer|]. intros out.
  apply grows_bind; [exact IH|]. intros outs. apply grows_ret.
Qed.

Lemma keeps_ret I {A} (a : A) : keeps I (ret a).
Proof. by intros w Hw. Qed.

Lemma keeps_throw I {A} e : keeps I (throw (A:=A) e).
Proof. by intros w Hw. Qed.

Lemma keeps_bind I {A C} (m : M A) (k : A -> M C) :
  keeps I m -> (forall a, keeps I (k a)) -> keeps I (bind m k).
Proof.
  intros Hm Hk w Hw. unfold bind. specialize (Hm w Hw).
  destruct (m w) as [[a|e|] w']; cbn [snd] in *; auto. by apply Hk.
Qed.

Lemma keeps_try_catch I {A} (m : M A) (h : Thrown -> M A) :
  keeps I m -> (forall e, keeps I (h e)) -> keeps I (try_catch m h).
Proof.
  intros Hm Hh w Hw. unfold try_catch. specialize (Hm w Hw).
  destruct (m w) as [[a|e|] w']; cbn [snd] in *; auto. by apply Hh.
Qed.

Lemma attempted_app l1 l2 : attempted (l1 ++ l2) = attempted l1 ++ attempted l2.
Proof. apply flat_map_app. Qed.

Lemma attempted_attempts ms : attempted (map Attempt ms) = ms.
Proof.
  induction ms as [|m ms IH]; [done|].
  change (m :: attempted (map Attempt ms) = m :: ms). by rewrite IH.
Qed.

Lemma rotation_In model x :
  In x (rotation model) <-> x = model \/ In x DEFAULT_MODEL_CANDIDATES.
Proof.
  rewrite rotation_head. cbn [In]. rewrite filter_In. split.
  - intros [<-|[Hx _]]; auto.
  - intros [->|Hx]; [by left|].
    destruct (String.eqb_spec x model) as [->|Hne]; [by left|right].
    by split.
Qed.

Lemma candidates_In model failed x :
  In x (candidates model failed) -> In x (rotation model).
Proof.
  intros [<-|Hx]; apply rotation_In; [by left|right].
  by apply filter_In in Hx as [Hx _].
Qed.

Lemma keeps_consistent_callTool model name args :
  keeps (consistent model) (callTool name args).
Proof.
  intros w [Ha Hb]. unfold callTool.
  destruct (call_tool (server w) name args) as [[content|err] s'];
    (split; cbn [snd failedModels log]; rewrite attempted_app; cbn;
     rewrite app_nil_r; assumption).
Qed.

Lemma keeps_consistent_try_in_order model msgs k cands :
  (forall c, In c cands -> In c (rotation model)) ->
  keeps (consistent model) (try_in_order msgs k cands).
Proof.
  induction cands as [|c cands IH]; intros Hc w Hw; [exact Hw|].
  cbn [try_in_order]. unfold try_catch, messages_create.
  destruct Hw as [Ha Hb].
  assert (consistent model
            {| backend := backend w; server := server w;
               failedModels := set_add c (failedModels w);
               log := log w ++ [Attempt c] |}) as Hw1.
  { split; cbn [failedModels log]; rewrite attempted_app; cbn [attempted flat_map app].
    - intros x Hx. apply set_add_In in Hx as [->|Hx]; apply in_app_iff;
        [right; by left|left; by apply Ha].
    - intros x Hx. apply in_app_iff in Hx as [Hx|[<-|[]]]; [by apply Hb|].
      apply Hc. by left. }
  destruct Hw1 as [Ha1 Hb1]. cbn [failedModels log] in Ha1, Hb1.
  destruct (create (backend w) c k msgs) as [[content|err] b].
  - split; cbn [snd failedModels log]; [|exact Hb1].
    intros x Hx. rewrite attempted_app. apply in_app_iff. left. by apply Ha.
  - destruct (is_not_found err).
    + unfold bind, failedModels_add. cbn [backend server failedModels log].
      apply IH; [intros c' Hc'; apply Hc; by right|].
      split; assumption.
    + split; cbn [snd failedModels log throw]; [|exact Hb1].
      intros x Hx. rewrite attempted_app. apply in_app_iff. left. by apply Ha.
Qed.

Lemma keeps_consistent_runAnthropic model msgs k :
  keeps (consistent model) (runAnthropic msgs model k).
Proof.
  intros w Hw. rewrite runAnthropic_try_in_order.
  apply keeps_consistent_try_in_order; [|exact Hw].
  intros c. apply candidates_In.
Qed.

Lemma keeps_consistent_session opts queries :
  keeps (consistent (chosenModel opts)) (session opts queries).
Proof.
  assert (forall name input q,
            keeps (consistent (chosenModel opts)) (use_tool name input q))
    as Huse.
  { intros name input q. unfold use_tool. apply keeps_try_catch.
    - apply keeps_bind; [apply keeps_consistent_callTool|].
      intros content. apply keeps_ret.
    - intros e. apply keeps_ret. }
  assert (forall blocks used q,
            keeps (consistent (chosenModel opts)) (process_content blocks used q))
    as Hcontent.
  { induction blocks as [|[text|name input|] blocks IH]; intros used q;
      cbn [process_content]; auto using keeps_ret.
    apply keeps_bind; [apply Huse|auto]. }
  assert (forall n response q,
            keeps (consistent (chosenModel opts))
              (safety_loop opts n response q)) as Hloop.
  { induction n as [|n IH]; intros response q; cbn [safety_loop];
      [apply keeps_ret|].
    apply keeps_bind; [apply Hcontent|].
    intros [usedTool q']. destruct usedTool; cbn [negb]; [|apply keeps_ret].
    apply keeps_bind; [apply keeps_consistent_runAnthropic|auto]. }
  induction queries as [|q queries IH]; cbn [session]; [apply keeps_ret|].
  apply keeps_bind; [|intros out; apply keeps_bind; [exact IH|]; intros outs;
                      apply keeps_ret].
  unfold answer. apply keeps_try_catch; [|intros e; apply keeps_ret].
  apply keeps_bind; [|intros resp; apply keeps_ret].
  unfold processQuery.
  apply keeps_bind; [apply keeps_consistent_runAnthropic|].
  intros response. apply keeps_bind; [apply Hloop|]. intros q'. apply keeps_ret.
Qed.

Lemma consistent_initial model b s : consistent model (initial_world b s).
Proof. split; intros x []. Qed.

(** *** Model fallback *)




Lemma use_tool_threw name input q w err s :
  call_tool (server w) name input = (ToolThrew err, s) ->
  use_tool name input q w
  = (Ok (after_tool_failure name input err q), after_tool_call w name s).
Proof.
  intros Hc. unfold use_tool, try_catch, bind, callTool. rewrite Hc.
  unfold ret, after_tool_failure. cbn [messages finalParts].
  by rewrite <- !(assoc_L (++)).
Qed.

Lemma use_tool_returned name input q w content s :
  call_tool (server w) name input = (ToolReturned content, s) ->
  use_tool name input q w
  = (Ok (after_tool_result name input content q), after_tool_call w name s).
Proof.
  intros Hc. unfold use_tool, try_catch, bind, callTool. rewrite Hc.
  unfold ret, after_tool_result. cbn [messages finalParts].
  by rewrite <- !(assoc_L (++)).
Qed.

Lemma use_tool_ok name input q w :
  exists q' s,
    use_tool name input q w = (Ok q', after_tool_call w name s).
Proof.
  destruct (call_tool (server w) name input) as [[content|err] s] eqn:Hc.
  - eexists _, s. by apply use_tool_returned.
  - eexists _, s. by apply use_tool_threw.
Qed.

(** The inner loop never throws; it calls tools only. *)
Lemma process_content_ok blocks : forall used q w,
  exists q' w',
    process_content blocks used q w
    = (Ok (used || existsb is_tool_use blocks, q'), w')
    /\ backend w' = backend w
    /\ failedModels w' = failedModels w
    /\ attempted (log w') = attempted (log w).
Proof.
  induction blocks as [|[text|name input|] blocks IH]; intros used q w;
    cbn [process_content existsb is_tool_use].
  - exists q, w. by rewrite orb_false_r.
  - apply IH.
  - unfold bind. destruct (use_tool_ok name input q w) as (q1 & s & ->).
    destruct (IH true q1 (after_tool_call w name s)) as (q' & w' & -> & Hb & Hf & Hl).
    exists q', w'. rewrite orb_true_r. split; [done|].
    rewrite Hb, Hf, Hl. cbn [after_tool_call backend failedModels log].
    unfold attempted. rewrite flat_map_app. cbn. by rewrite app_nil_r.
  - apply IH.
Qed.

Lemma process_content_no_tool blocks : forall used q w,
  existsb is_tool_use blocks = false ->
  process_content blocks used q w
  = (Ok (used, {| messages := messages q;
                  finalParts := finalParts q ++ texts blocks |}), w).
Proof.
  induction blocks as [|[text|name input|] blocks IH]; intros used q w Hno;
    cbn [process_content existsb is_tool_use orb texts flat_map app] in *.
  - rewrite app_nil_r. by destruct q.
  - rewrite IH by done. cbn [messages finalParts].
    by rewrite <- (assoc_L (++)).
  - discriminate.
  - by apply IH.
Qed.

Lemma runAnthropic_answers msgs model k w content :
  fst (create (backend w) model k msgs) = Created content ->
  exists w',
    runAnthropic msgs model k w = (Ok content, w')
    /\ attempted (log w') = attempted (log w) ++ [model].
Proof.
  intros Hc.
  destruct (create (backend w) model k msgs) as [r b] eqn:Hcreate.
  cbn [fst] in Hc. subst r.
  eexists. split; [by apply runAnthropic_created|].
  cbn [log]. unfold attempted. by rewrite flat_map_app.
Qed.

Lemma safety_loop_step opts n response q w q1 w1 response' w2 :
  process_content response false q w = (Ok (true, q1), w1) ->
  runAnthropic (messages q1) (chosenModel opts) (maxTokens opts) w1
  = (Ok response', w2) ->
  safety_loop opts (S n) response q w = safety_loop opts n response' q1 w2.
Proof.
  intros Hp Hr. cbn [safety_loop]. unfold bind at 1. rewrite Hp.
  cbn [negb]. unfold bind at 1. by rewrite Hr.
Qed.

Lemma safety_loop_rounds opts n : forall response q w,
  always_asks_for_a_tool ->
  existsb is_tool_use response = true ->
  exists response' q' w',
    rounds opts n (response, q, w) (response', q', w')
    /\ safety_loop opts n response q w = (Ok q', w')
    /\ length (attempted (log w')) = length (attempted (log w)) + n.
Proof.
  induction n as [|n IH]; intros response q w Hb Htool.
  - exists response, q, w. split; [done|]. split; [done|lia].
  - destruct (process_content_ok response false q w)
      as (q1 & w1 & Hp & Hb1 & _ & Hl1).
    rewrite Htool in Hp. cbn [orb] in Hp.
    destruct (Hb (backend w1) (chosenModel opts) (maxTokens opts) (messages q1))
      as (content & Hc & Htool').
    destruct (runAnthropic_answers _ _ _ _ _ Hc) as (w2 & Hr & Hl2).
    destruct (IH content q1 w2 Hb Htool') as (r' & q' & w' & Hrounds & Hloop & Hl).
    exists r', q', w'. split; [|split].
    + cbn [rounds]. exists (content, q1, w2). split; [|done]. by exists w1.
    + by rewrite (safety_loop_step opts n response q w q1 w1 content w2).
    + rewrite Hl, Hl2, length_app, Hl1. cbn [length]. lia.
Qed.

(** C6.  With a backend that always asks for a tool, [processQuery] makes
    exactly five full rounds (tools, then the next response), returns the
    parts accumulated in them joined by line feeds, and throws nothing; the
    backend was asked six times in all, the last answer being dropped.  And
    a response without any [tool_use] block ends the loop at once: the loop
    returns with the texts of that response added and makes no further
    call, so that a query whose first response has none is answered by the
    texts of that response joined by line feeds. *)
Theorem round_cap :
  (always_asks_for_a_tool ->
   forall opts query w,
   exists response0 w0 response5 q5 w5,
     runAnthropic [user query] (chosenModel opts) (maxTokens opts) w
     = (Ok response0, w0)
     /\ rounds opts 5
          (response0, {| messages := [user query]; finalParts := [] |}, w0)
          (response5, q5, w5)
     /\ processQuery opts query w = (Ok (JS.join JS.LF (finalParts q5)), w5)
     /\ length (attempted (log w5)) = length (attempted (log w)) + 6)
  /\ (forall opts n response q w,
        existsb is_tool_use response = false ->
        safety_loop opts (S n) response q w
        = (Ok {| messages := messages q;
                 finalParts := finalParts q ++ texts response |}, w))
  /\ (forall opts query w response0 w0,
        runAnthropic [user query] (chosenModel opts) (maxTokens opts) w
        = (Ok response0, w0) ->
        existsb is_tool_use response0 = false ->
        processQuery opts query w = (Ok (JS.join JS.LF (texts response0)), w0)).
Proof.
  split; [|split].
  - intros Hb opts query w.
    destruct (Hb (backend w) (chosenModel opts) (maxTokens opts) [user query])
      as (response0 & Hc & Htool).
    destruct (runAnthropic_answers _ _ _ _ _ Hc) as (w0 & Hr & Hl0).
    destruct (safety_loop_rounds opts 5 response0
                {| messages := [user query]; finalParts := [] |} w0 Hb Htool)
      as (response5 & q5 & w5 & Hrounds & Hloop & Hl).
    exists response0, w0, response5, q5, w5.
    split; [exact Hr|]. split; [exact Hrounds|]. split.
    + unfold processQuery. cbn [messages]. unfold bind at 1. rewrite Hr.
      unfold bind at 1. by rewrite Hloop.
    + rewrite Hl, Hl0, length_app. cbn [length]. lia.
  - intros opts n response q w Hno. cbn [safety_loop]. unfold bind.
    by rewrite process_content_no_tool.
  - intros opts query w response0 w0 Hr Hno.
    unfold processQuery. cbn [messages]. unfold bind at 1. rewrite Hr.
    unfold bind at 1. cbn [safety_loop]. unfold bind at 1.
    by rewrite process_content_no_tool.
Qed.

Lemma safety_loop_ok opts n : forall response q w,
  always_answers ->
  exists q' w', safety_loop opts n response q w = (Ok q', w').
Proof.
  induction n as [|n IH]; intros response q w Hb; [by exists q, w|].
  cbn [safety_loop]. unfold bind at 1.
  destruct (process_content_ok response false q w) as (q1 & w1 & -> & _).
  destruct (false || existsb is_tool_use response); cbn [negb];
    [|by exists q1, w1].
  destruct (Hb (backend w1) (chosenModel opts) (maxTokens opts) (messages q1))
    as (content & Hc).
  destruct (runAnthropic_answers _ _ _ _ _ Hc) as (w2 & Hr & _).
  unfold bind at 1. rewrite Hr. by apply IH.
Qed.

(** C7.  A tool call that throws does not abort the query: [use_tool]
    returns, having recorded the failure in two trace lines after the line of
    the call and appended the error to the conversation as a user turn; the
    inner loop goes on with the next block, with [usedTool] set; the outer
    loop then asks the backend for the next response, on the conversation
    that holds the error turn; and as long as the backend answers, the query
    returns an answer whatever the tools do. *)
Theorem tool_failure_is_not_fatal :
  (forall name input q w err s,
      call_tool (server w) name input = (ToolThrew err, s) ->
      use_tool name input q w
      = (Ok (after_tool_failure name input err q), after_tool_call w name s))
  /\ (forall name input rest used q w err s,
        call_tool (server w) name input = (ToolThrew err, s) ->
        process_content (ToolUse name input :: rest) used q w
        = process_content rest true (after_tool_failure name input err q)
            (after_tool_call w name s))
  /\ (forall opts n name input q w err s,
        call_tool (server w) name input = (ToolThrew err, s) ->
        let q' := after_tool_failure name input err q in
        safety_loop opts (S n) [ToolUse name input] q w
        = (response <- runAnthropic (messages q') (chosenModel opts)
                         (maxTokens opts) ;;
           safety_loop opts n response q') (after_tool_call w name s))
  /\ (always_answers ->
      forall opts query w,
      exists out w', processQuery opts query w = (Ok out, w')).
Proof.
  split; [|split; [|split]].
  - intros. by apply use_tool_threw.
  - intros name input rest used q w err s Hc.
    cbn [process_content]. unfold bind. by rewrite (use_tool_threw _ _ _ _ _ _ Hc).
  - intros opts n name input q w err s Hc. cbn zeta.
    cbn [safety_loop process_content]. unfold bind at 1. unfold bind at 1.
    by rewrite (use_tool_threw _ _ _ _ _ _ Hc).
  - intros Hb opts query w.
    destruct (Hb (backend w) (chosenModel opts) (maxTokens opts) [user query])
      as (content & Hc).
    destruct (runAnthropic_answers _ _ _ _ _ Hc) as (w0 & Hr & _).
    destruct (safety_loop_ok opts 5 content
                {| messages := [user query]; finalParts := [] |} w0 Hb)
      as (q' & w' & Hloop).
    exists (JS.join JS.LF (finalParts q')), w'.
    unfold processQuery. cbn [messages]. unfold bind at 1. rewrite Hr.
    unfold bind at 1. by rewrite Hloop.
Qed.


End WithPlatform.

Example third_only_query :
  @processQuery P_third_only no_options "q" (start P_third_only tt tt)
  = (Ok ("let me look" ++ JS.LF ++ "[Calling tool get_tables args={}]" ++ JS.LF
         ++ "[Tool get_tables result: [{}]]" ++ JS.LF ++ "two tables")%string,
     @Build_World P_third_only tt tt
       ["claude-3-5-sonnet-20241022"; "claude-sonnet-4-20250514"]%string
       [Attempt "claude-3-5-sonnet-20241022";
        Attempt "claude-sonnet-4-20250514";
        Attempt "claude-3-5-sonnet-latest";
        ToolCall "get_tables";
        Attempt "claude-3-5-sonnet-20241022";
        Attempt "claude-3-5-sonnet-latest"]).
Proof. vm_compute. reflexivity. Qed.




(** With a backend that rejects every model, the second query of a session
    attempts the chosen model only; its error lists the three models, which
    the first query attempted. *)
Example second_failing_query :
  let w1 := snd (@answer P_none_found no_options "q" (start P_none_found tt tt)) in
  let r := @answer P_none_found no_options "r" w1 in
  attempted (log w1)
  = ["claude-3-5-sonnet-20241022"; "claude-sonnet-4-20250514";
     "claude-3-5-sonnet-latest"]%string
  /\ attempted (log (snd r))
     = attempted (log w1) ++ ["claude-3-5-sonnet-20241022"]
  /\ fst r
     = Ok ("Error processing query: All candidate models unavailable: "
           ++ "claude-3-5-sonnet-20241022, claude-sonnet-4-20250514, "
           ++ "claude-3-5-sonnet-latest")%string.
Proof. vm_compute. repeat split; reflexivity. Qed.


Lemma always_tool_asks : @always_asks_for_a_tool P_always_tool.
Proof.
  intros b model k msgs. exists [Text "hm"; ToolUse "nope" Undefined].
  split; reflexivity.
Defined.

Lemma round_cap_witness :
  exists response0 w0 response5 q5 w5,
    @runAnthropic P_always_tool [user "q"] (chosenModel no_options)
      (maxTokens no_options) (start P_always_tool tt tt)
    = (Ok response0, w0)
    /\ @rounds P_always_tool no_options 5
         (response0, {| messages := [user "q"]; finalParts := [] |}, w0)
         (response5, q5, w5)
    /\ @processQuery P_always_tool no_options "q" (start P_always_tool tt tt)
       = (Ok (JS.join JS.LF (finalParts q5)), w5)
    /\ length (attempted (log w5))
       = length (attempted (log (start P_always_tool tt tt))) + 6.
Proof.
  exact (proj1 (@round_cap P_always_tool) always_tool_asks no_options "q"
           (start P_always_tool tt tt)).
Defined.

Example always_tool_query :
  let r := @processQuery P_always_tool no_options "q" (start P_always_tool tt tt) in
  log (snd r)
  = [Attempt "claude-3-5-sonnet-20241022"; ToolCall "nope";
     Attempt "claude-3-5-sonnet-20241022"; ToolCall "nope";
     Attempt "claude-3-5-sonnet-20241022"; ToolCall "nope";
     Attempt "claude-3-5-sonnet-20241022"; ToolCall "nope";
     Attempt "claude-3-5-sonnet-20241022"; ToolCall "nope";
     Attempt "claude-3-5-sonnet-20241022"]
  /\ exists out, fst r = Ok out.
Proof. vm_compute. split; [reflexivity|eauto]. Qed.

Lemma tool_failure_is_not_fatal_witness :
  @use_tool P_always_tool "nope" Undefined
    {| messages := [user "q"]; finalParts := ["hm"%string] |}
    (start P_always_tool tt tt)
  = (Ok (@after_tool_failure P_always_tool "nope" Undefined
           (JsError "unknown tool")
           {| messages := [user "q"]; finalParts := ["hm"%string] |}),
     @after_tool_call P_always_tool (start P_always_tool tt tt) "nope" tt).
Proof.
  apply (proj1 (@tool_failure_is_not_fatal P_always_tool)). reflexivity.
Defined.

Example long_tool_parts :
  let r := @use_tool P_long_tool "get_tables" Undefined
             {| messages := []; finalParts := [] |} (start P_long_tool tt tt) in
  exists q w, r = (Ok q, w)
    /\ finalParts q
       = ["[Calling tool get_tables args=undefined]";
          "[Tool get_tables result: Sales, Customer, Product, Date, Territory, Reselle...]"]%string.
Proof. vm_compute. eauto. Qed.


(** *** One call of [runAnthropic] *)

Section Generate.

Context `{Platform}.

Lemma rotation_length model : length (rotation model) <= 4.
Proof.
  rewrite rotation_head. cbn [length].
  pose proof (filter_length_le
                (fun m => negb (String.eqb m model)) DEFAULT_MODEL_CANDIDATES)
    as Hle.
  change (length DEFAULT_MODEL_CANDIDATES) with 3 in Hle. lia.
Qed.

Lemma try_in_order_first msgs k c cands w :
  exists ms,
    log (snd (try_in_order msgs k (c :: cands) w))
    = log w ++ map Attempt (c :: ms)
    /\ exists rest, cands = ms ++ rest.
Proof.
  cbn [try_in_order]. unfold try_catch, messages_create.
  destruct (create (backend w) c k msgs) as [[content|err] b].
  - exists []. split; [done|]. by exists cands.
  - destruct (is_not_found err).
    + unfold bind, failedModels_add. cbn [backend server failedModels log].
      set (w1 := {| backend := b; server := server w;
                    failedModels := set_add c (failedModels w);
                    log := log w ++ [Attempt c] |}).
      destruct (try_in_order_log msgs k cands w1) as (ms & rest & -> & Hlog).
      exists ms. split; [|by exists rest].
      rewrite Hlog. subst w1. cbn [log map]. by rewrite <- (assoc_L (++)).
    + exists []. split; [done|]. by exists cands.
Qed.

(** X12.  A call of [runAnthropic] ends, whatever the backend does: it returns or
    throws after at most four requests (the model asked for and the three
    built-in ones), the first for the model asked for, no two for the same
    model, and all for models of the rotation. *)
Theorem generate_call_is_bounded
  (msgs : list Turn) (model : string) (k : Z) (w : World) :
  exists ms,
    log (snd (runAnthropic msgs model k w))
    = log w ++ map Attempt (model :: ms)
    /\ List.NoDup (model :: ms)
    /\ incl (model :: ms) (rotation model)
    /\ length (model :: ms) <= 4
    /\ fst (runAnthropic msgs model k w) <> OutOfFuel.
Proof.
  pose proof (runAnthropic_total msgs model k w) as Htotal.
  rewrite runAnthropic_try_in_order in *.
  pose proof (candidates_NoDup model (failedModels w)) as Hnd.
  pose proof (candidates_In model (failedModels w)) as Hin.
  unfold candidates in *.
  set (cands := List.filter _ DEFAULT_MODEL_CANDIDATES) in *.
  destruct (try_in_order_first msgs k model cands w)
    as (ms & Hlog & rest & Hsplit).
  exists ms. split; [exact Hlog|].
  assert (List.NoDup (model :: ms)) as Hnd'.
  { rewrite Hsplit in Hnd.
    change (model :: ms ++ rest) with ((model :: ms) ++ rest) in Hnd.
    by apply NoDup_app_remove_r in Hnd. }
  assert (incl (model :: ms) (rotation model)) as Hincl.
  { intros x Hx. apply Hin. rewrite Hsplit.
    change (model :: ms ++ rest) with ((model :: ms) ++ rest).
    apply in_app_iff. by left. }
  split; [exact Hnd'|]. split; [exact Hincl|]. split; [|exact Htotal].
  pose proof (List.NoDup_incl_length Hnd' Hincl) as Hlen.
  pose proof (rotation_length model). lia.
Qed.

(** X13.  An error of the backend that is not [not_found_error] (a rate limit, a
    refused key, a network failure) is thrown again as it is: after the one
    request, no other model is tried and nothing is added to [failedModels].
    A query that begins with such an error ends with it, and the console
    prints it. *)
Theorem other_errors_are_rethrown
  (opts : Options) (query : string) (w : World)
  (err : Thrown) (b : BackendState) :
  create (backend w) (chosenModel opts) (maxTokens opts) [user query]
  = (CreateThrew err, b) ->
  is_not_found err = false ->
  let w' := {| backend := b; server := server w;
               failedModels := failedModels w;
               log := log w ++ [Attempt (chosenModel opts)] |} in
  runAnthropic [user query] (chosenModel opts) (maxTokens opts) w
  = (Throw err, w')
  /\ processQuery opts query w = (Throw err, w')
  /\ answer opts query w
     = (Ok ("Error processing query: " ++ error_text err)%string, w').
Proof.
  intros Hc Hnf w'.
  assert (runAnthropic [user query] (chosenModel opts) (maxTokens opts) w
          = (Throw err, w')) as Hrun.
  { rewrite runAnthropic_try_in_order.
    cbn [candidates try_in_order]. unfold try_catch, messages_create.
    by rewrite Hc, Hnf. }
  assert (processQuery opts query w = (Throw err, w')) as Hquery.
  { unfold processQuery. cbn [messages]. unfold bind at 1. by rewrite Hrun. }
  split; [exact Hrun|]. split; [exact Hquery|].
  unfold answer, try_catch, bind. by rewrite Hquery.
Qed.


(** *** The conversation *)

Lemma use_tool_turn name input q w :
  exists text parts w',
    use_tool name input q w
    = (Ok {| messages := messages q ++ [user text];
             finalParts := finalParts q ++ parts |}, w').
Proof.
  destruct (call_tool (server w) name input) as [[content|err] s] eqn:Hc.
  - rewrite (use_tool_returned _ _ _ _ _ _ Hc). unfold after_tool_result.
    by eexists _, _, _.
  - rewrite (use_tool_threw _ _ _ _ _ _ Hc). unfold after_tool_failure.
    by eexists _, _, _.
Qed.

Lemma process_content_turns blocks : forall used q w,
  exists turns parts w',
    process_content blocks used q w
    = (Ok (used || existsb is_tool_use blocks,
           {| messages := messages q ++ turns;
              finalParts := finalParts q ++ parts |}), w')
    /\ length turns = length (List.filter is_tool_use blocks)
    /\ Forall (fun turn => role turn = "user") turns.
Proof.
  induction blocks as [|[text|name input|] blocks IH]; intros used q w;
    cbn [process_content existsb is_tool_use List.filter].
  - exists [], [], w. rewrite !app_nil_r, orb_false_r.
    split; [by destruct q|]. by split.
  - destruct (IH used {| messages := messages q;
                         finalParts := finalParts q ++ [text] |} w)
      as (turns & parts & w' & -> & Hlen & Hall).
    cbn [messages finalParts]. exists turns, (text :: parts), w'.
    split; [|by split]. by rewrite <- (assoc_L (++)).
  - unfold bind.
    destruct (use_tool_turn name input q w) as (text & parts1 & w1 & ->).
    destruct (IH true {| messages := messages q ++ [user text];
                         finalParts := finalParts q ++ parts1 |} w1)
      as (turns & parts & w' & -> & Hlen & Hall).
    cbn [messages finalParts].
    exists (user text :: turns), (parts1 ++ parts), w'.
    rewrite orb_true_r. split; [|split].
    + by rewrite <- !(assoc_L (++)).
    + cbn [length]. by rewrite Hlen.
    + by constructor.
  - apply IH.
Qed.

(** X15.  The conversation of a query only grows, and by the turns of the tools
    only: processing the blocks of a response appends one turn for each
    [tool_use] block, whether the tool returned or threw, and every turn it
    appends has the role [user].  Text blocks add no turn: what the model
    said is not put into the conversation.  The same holds of the whole
    loop, whenever it returns. *)
Theorem conversation_is_append_only :
  (forall blocks used q w,
      exists turns parts w',
        process_content blocks used q w
        = (Ok (used || existsb is_tool_use blocks,
               {| messages := messages q ++ turns;
                  finalParts := finalParts q ++ parts |}), w')
        /\ length turns = length (List.filter is_tool_use blocks)
        /\ Forall (fun turn => role turn = "user") turns)
  /\ (forall opts n response q w,
        match fst (safety_loop opts n response q w) with
        | Ok q' =>
            exists turns,
              messages q' = messages q ++ turns
              /\ Forall (fun turn => role turn = "user") turns
        | _ => True
        end).
Proof.
  split; [intros; apply process_content_turns|].
  intros opts n. induction n as [|n IH]; intros response q w.
  - cbn. exists []. by rewrite app_nil_r.
  - cbn [safety_loop]. unfold bind at 1.
    destruct (process_content_turns response false q w)
      as (turns & parts & w1 & -> & _ & Hall).
    destruct (false || existsb is_tool_use response); cbn [negb].
    + unfold bind at 1. cbn [messages].
      destruct (runAnthropic (messages q ++ turns) (chosenModel opts)
                  (maxTokens opts) w1) as [[response'| |] w2]; [|done|done].
      specialize (IH response' {| messages := messages q ++ turns;
                                  finalParts := finalParts q ++ parts |} w2).
      destruct (fst (safety_loop opts n response' _ w2)) as [q'| |];
        [|done|done].
      destruct IH as (turns' & Hm & Hall'). cbn [messages] in Hm.
      exists (turns ++ turns'). split; [by rewrite Hm, (assoc_L (++))|].
      by apply Forall_app.
    + cbn. by exists turns.
Qed.

(** *** The preview of a tool result *)

(** X16.  The preview of a tool result is short and stays on one line, whatever
    the tool returned: it has at most 53 characters, and the only white
    space in it is the space (no line feed, no tab). *)
Theorem preview_is_short_and_on_one_line (text : string) :
  let shown := preview (singleLine text) in
  String.length shown <= 53
  /\ JS.all_chars JS.plain_space shown = true.
Proof.
  cbn zeta. unfold preview.
  assert (JS.all_chars JS.plain_space (singleLine text) = true) as Hplain.
  { unfold singleLine. apply JSFacts.trim_all_chars, JSFacts.collapse_spaces_plain. }
  destruct (Nat.ltb_spec 50 (String.length (singleLine text))) as [Hlong|Hshort].
  - rewrite JSFacts.slice_from_start. split.
    + rewrite JSFacts.length_append.
      pose proof (JSFacts.take_length_le 50 (singleLine text)).
      cbn [String.length]. lia.
    + rewrite JSFacts.all_chars_app.
      by rewrite JSFacts.take_all_chars.
  - split; [lia|exact Hplain].
Qed.

End Generate.

(** *** The console loop *)

Section ConsoleLoop.

Context `{Platform}.

Variable list_tools : ServerState -> option Thrown * ServerState.

(** X17.  After [exit], typed in any case and with white space around it, nothing
    that is typed is read: the lines that follow it change neither what is
    printed nor the world. *)
Theorem console_ignores_after_exit
  (opts : Options) (pre post : list string) (line : string) (t : Terminal) :
  JS.toLowerCase (JS.trim line) = "exit" ->
  console list_tools opts (pre ++ line :: post) t
  = console list_tools opts (pre ++ [line]) t.
Proof.
  intros Hexit. revert t.
  induction pre as [|l pre IH]; intros t; cbn [app console].
  - by rewrite Hexit.
  - destruct (String.eqb (JS.toLowerCase (JS.trim l)) "exit"); [done|].
    destruct (negb (JS.truthy (JS.trim l))); [apply IH|].
    destruct (refreshToolsIfChanged list_tools (world t)) as [[[]| |] w];
      [|done|done].
    destruct (answer opts (JS.trim l) w) as [[resp| |] w']; [|done|done].
    apply IH.
Qed.

(** X18.  A line that is empty or blank is passed over: no request is made for it
    (the tools are not refreshed either) and nothing is printed. *)
Theorem console_skips_blank_lines
  (opts : Options) (pre post : list string) (line : string) (t : Terminal) :
  JS.trim line = "" ->
  console list_tools opts (pre ++ line :: post) t
  = console list_tools opts (pre ++ post) t.
Proof.
  intros Hblank. revert t.
  induction pre as [|l pre IH]; intros t; cbn [app console].
  - by rewrite Hblank.
  - destruct (String.eqb (JS.toLowerCase (JS.trim l)) "exit"); [done|].
    destruct (negb (JS.truthy (JS.trim l))); [apply IH|].
    destruct (refreshToolsIfChanged list_tools (world t)) as [[[]| |] w];
      [|done|done].
    destruct (answer opts (JS.trim l) w) as [[resp| |] w']; [|done|done].
    apply IH.
Qed.

Lemma safety_loop_total opts n : forall response q w,
  fst (safety_loop opts n response q w) <> OutOfFuel.
Proof.
  induction n as [|n IH]; intros response q w; [done|].
  cbn [safety_loop]. unfold bind at 1.
  destruct (process_content_ok response false q w) as (q1 & w1 & -> & _).
  destruct (false || existsb is_tool_use response); cbn [negb]; [|done].
  unfold bind at 1.
  pose proof (runAnthropic_total (messages q1) (chosenModel opts)
                (maxTokens opts) w1) as Ht.
  destruct (runAnthropic (messages q1) (chosenModel opts) (maxTokens opts) w1)
    as [[response'| |] w2]; cbn [fst] in Ht; [apply IH|done|congruence].
Qed.

Lemma processQuery_total opts q w :
  fst (processQuery opts q w) <> OutOfFuel.
Proof.
  unfold processQuery. cbn [messages]. unfold bind at 1.
  pose proof (runAnthropic_total [user q] (chosenModel opts)
                (maxTokens opts) w) as Ht.
  destruct (runAnthropic [user q] (chosenModel opts) (maxTokens opts) w)
    as [[response| |] w0]; cbn [fst] in Ht; [|done|congruence].
  unfold bind at 1.
  pose proof (safety_loop_total opts 5 response
                {| messages := [user q]; finalParts := [] |} w0) as Hl.
  destruct (safety_loop opts 5 response _ w0) as [[q'| |] w1];
    cbn [fst] in Hl; [done|done|congruence].
Qed.

Lemma answer_always_returns opts q w :
  exists resp w', answer opts q w = (Ok resp, w').
Proof.
  pose proof (processQuery_total opts q w) as Ht.
  unfold answer, try_catch, bind.
  destruct (processQuery opts q w) as [[resp|e|] w']; cbn [fst] in Ht.
  - by eexists _, _.
  - by eexists _, _.
  - congruence.
Qed.

(** X19.  No query ends the session.  As long as the refresh of the tools
    does not throw, whatever the backend and the tools do, the loop prints
    exactly one text for each query (the answer, or the line of the error;
    the log of [--verbose] aside) and goes on: when the lines are used up it
    is waiting for the next one, or has left at [exit]. *)
Theorem console_prints_once_per_query
  (opts : Options) (lines : list string) (t : Terminal) :
  (forall s, fst (list_tools s) = None) ->
  let '(ending, t') := console list_tools opts lines t in
  (ending = Waiting \/ ending = Exited)
  /\ exists texts,
       printed t' = printed t ++ texts
       /\ length texts = length (queries lines).
Proof.
  intros Hrefresh. revert t.
  induction lines as [|line rest IH]; intros t; cbn [console queries].
  - split; [by left|]. exists []. by rewrite app_nil_r.
  - destruct (String.eqb (JS.toLowerCase (JS.trim line)) "exit").
    { split; [by right|]. exists []. by rewrite app_nil_r. }
    destruct (negb (JS.truthy (JS.trim line))); [apply IH|].
    unfold refreshToolsIfChanged. specialize (Hrefresh (server (world t))).
    destruct (list_tools (server (world t))) as [r s]. cbn [fst] in Hrefresh.
    subst r.
    set (w := {| backend := backend (world t); server := s;
                 failedModels := failedModels (world t);
                 log := log (world t) |}).
    destruct (answer_always_returns opts (JS.trim line) w) as (resp & w' & ->).
    specialize (IH {| world := w'; printed := printed t ++ [resp] |}).
    destruct (console list_tools opts rest _) as [ending t'].
    destruct IH as (Hend & texts & Hp & Hlen). split; [exact Hend|].
    exists (resp :: texts). cbn [printed] in Hp.
    split; [by rewrite Hp, <- (assoc_L (++))|]. cbn [length]. by rewrite Hlen.
Qed.

End ConsoleLoop.

Example none_found_attempts :
  length (attempted (log (snd (@runAnthropic P_none_found [user "q"]
                                 "claude-sonnet-4-20250514" 1000
                                 (start P_none_found tt tt))))) = 3.
Proof. reflexivity. Qed.

Lemma other_errors_are_rethrown_witness :
  let w := start P_overloaded tt tt in
  let w' := @Build_World P_overloaded tt tt []
              [Attempt "claude-3-5-sonnet-20241022"] in
  @runAnthropic P_overloaded [user "q"] "claude-3-5-sonnet-20241022" 1000 w
  = (Throw overloaded_error, w')
  /\ @processQuery P_overloaded no_options "q" w = (Throw overloaded_error, w')
  /\ @answer P_overloaded no_options "q" w
     = (Ok "Error processing query: Overloaded", w').
Proof.
  apply (@other_errors_are_rethrown P_overloaded no_options "q"
           (start P_overloaded tt tt) overloaded_error tt);
    reflexivity.
Defined.


Lemma console_ignores_after_exit_witness :
  @console P_third_only tools_listed no_options
    ["tables?"; "  Exit "; "more?"; "exit"]
    (fresh_terminal P_third_only tt tt)
  = @console P_third_only tools_listed no_options
      ["tables?"; "  Exit "]
      (fresh_terminal P_third_only tt tt).
Proof.
  apply (@console_ignores_after_exit P_third_only tools_listed no_options
           ["tables?"] ["more?"; "exit"] "  Exit "
           (fresh_terminal P_third_only tt tt)).
  reflexivity.
Defined.

Lemma console_skips_blank_lines_witness :
  @console P_third_only tools_listed no_options
    ["tables?"; "   "; "more?"]
    (fresh_terminal P_third_only tt tt)
  = @console P_third_only tools_listed no_options
      ["tables?"; "more?"]
      (fresh_terminal P_third_only tt tt).
Proof.
  apply (@console_skips_blank_lines P_third_only tools_listed no_options
           ["tables?"] ["more?"] "   "
           (fresh_terminal P_third_only tt tt)).
  reflexivity.
Defined.

Lemma console_prints_once_per_query_witness :
  let '(ending, t') :=
    @console P_none_found tools_listed no_options
      ["tables?"; ""; " measures? "; "EXIT"; "more?"]
      (fresh_terminal P_none_found tt tt) in
  (ending = Waiting \/ ending = Exited)
  /\ exists texts,
       printed t' = printed (fresh_terminal P_none_found tt tt) ++ texts
       /\ length texts
          = length (queries ["tables?"; ""; " measures? "; "EXIT"; "more?"]).
Proof.
  apply (@console_prints_once_per_query P_none_found tools_listed no_options
           ["tables?"; ""; " measures? "; "EXIT"; "more?"]
           (fresh_terminal P_none_found tt tt)).
  reflexivity.
Defined.

Example console_run :
  @console P_none_found tools_listed no_options
    ["tables?"; ""; "EXIT"; "more?"] (fresh_terminal P_none_found tt tt)
  = (Exited,
     @Build_Terminal P_none_found
       (@Build_World P_none_found tt tt
          ["claude-3-5-sonnet-20241022"; "claude-sonnet-4-20250514";
           "claude-3-5-sonnet-latest"]
          [Attempt "claude-3-5-sonnet-20241022";
           Attempt "claude-sonnet-4-20250514";
           Attempt "claude-3-5-sonnet-latest"])
       ["Error processing query: All candidate models unavailable: claude-3-5-sonnet-20241022, claude-sonnet-4-20250514, claude-3-5-sonnet-latest"]).
Proof. reflexivity. Qed.

End CliFacts.

(* ===================================================================== *)
(** ** Facts: An earlier src/cli.ts: fetchLatestAnthropicModel *)
(* ===================================================================== *)

Module LatestModelFacts.

Import LatestModel.

Local Open Scope list_scope.

(** *** The order of strings *)

Lemma ascii_compare_trans a b c :
  Ascii.compare a b <> Gt -> Ascii.compare b c <> Gt -> Ascii.compare a c <> Gt.
Proof.
  unfold Ascii.compare. rewrite !N.compare_le_iff. lia.
Qed.

Lemma ascii_compare_eq a b : Ascii.compare a b = Eq -> a = b.
Proof. apply Ascii.compare_eq_iff. Qed.

Lemma ascii_compare_lt_trans a b c :
  Ascii.compare a b = Lt -> Ascii.compare b c = Lt -> Ascii.compare a c = Lt.
Proof.
  unfold Ascii.compare. rewrite !N.compare_lt_iff. lia.
Qed.

Lemma leq_trans a : forall b c,
  JS.leq a b = true -> JS.leq b c = true -> JS.leq a c = true.
Proof.
  unfold JS.leq, String.leb.
  induction a as [|x a IH]; intros [|y b] [|z c]; cbn [String.compare];
    try done.
  destruct (Ascii.compare x y) eqn:Hxy; [| |done].
  - apply ascii_compare_eq in Hxy. subst y.
    destruct (Ascii.compare x z); [apply IH|done|done].
  - destruct (Ascii.compare y z) eqn:Hyz; [| |done].
    + apply ascii_compare_eq in Hyz. subst z. by rewrite Hxy.
    + by rewrite (ascii_compare_lt_trans x y z).
Qed.

Lemma leq_total a b : JS.leq a b = true \/ JS.leq b a = true.
Proof. apply String.leb_total. Qed.

Lemma leq_refl a : JS.leq a a = true.
Proof. by destruct (leq_total a a). Qed.

(** *** Sorting, and the last element *)

Lemma insert_sorted_In x y arr :
  In y (JS.insert_sorted x arr) <-> y = x \/ In y arr.
Proof.
  induction arr as [|z arr IH]; cbn [JS.insert_sorted In].
  - split; [intros [<-|[]]|intros [->|[]]]; by left.
  - destruct (JS.leq x z); cbn [In].
    + split; [intros [<-|Hy]|intros [->|Hy]]; auto.
    + rewrite IH. tauto.
Qed.

Lemma sort_In y arr : In y (JS.sort arr) <-> In y arr.
Proof.
  induction arr as [|x arr IH]; [done|].
  cbn [JS.sort fold_right In]. fold (JS.sort arr).
  rewrite insert_sorted_In, IH. split; intros [->|Hy]; auto.
Qed.

Lemma insert_sorted_ordered x arr :
  ordered arr -> ordered (JS.insert_sorted x arr).
Proof.
  induction arr as [|z arr IH]; intros Harr; [done|].
  destruct Harr as [Hz Harr]. cbn [JS.insert_sorted].
  destruct (JS.leq x z) eqn:Hxz.
  - split; [|by split]. intros y [<-|Hy]; [done|].
    eapply leq_trans; [exact Hxz|by apply Hz].
  - split; [|by apply IH]. intros y Hy.
    apply insert_sorted_In in Hy as [->|Hy]; [|by apply Hz].
    destruct (leq_total x z); congruence.
Qed.

Lemma sort_ordered arr : ordered (JS.sort arr).
Proof.
  induction arr as [|x arr IH]; [done|]. by apply insert_sorted_ordered.
Qed.

Lemma pop_ordered arr :
  ordered arr ->
  match pop arr with
  | Some latest => In latest arr /\ forall y, In y arr -> JS.leq y latest = true
  | None => arr = []
  end.
Proof.
  unfold pop. induction arr as [|x arr IH]; intros Harr; [done|].
  destruct Harr as [Hx Harr]. specialize (IH Harr). cbn [rev].
  destruct (rev arr) as [|z r] eqn:Hrev.
  - subst arr. cbn. split; [by left|]. intros y [<-|[]]. apply leq_refl.
  - cbn [app]. destruct IH as [Hin Hmax]. split; [by right|].
    intros y [<-|Hy]; [by apply Hx|by apply Hmax].
Qed.

Lemma pop_sort arr :
  match pop (JS.sort arr) with
  | Some latest => In latest arr /\ forall y, In y arr -> JS.leq y latest = true
  | None => arr = []
  end.
Proof.
  pose proof (pop_ordered (JS.sort arr) (sort_ordered arr)) as Hp.
  destruct (pop (JS.sort arr)) as [latest|].
  - destruct Hp as [Hin Hmax]. split; [by apply sort_In|].
    intros y Hy. by apply Hmax, sort_In.
  - destruct arr as [|x arr]; [done|].
    assert (In x (JS.sort (x :: arr))) as Hin by (apply sort_In; by left).
    rewrite Hp in Hin. destruct Hin.
Qed.

Lemma string_ids_In id entries :
  In id (string_ids entries) <-> In (Id (Some id)) entries.
Proof.
  unfold string_ids. rewrite in_flat_map. split.
  - intros ([|[x|]] & Hin & Hx); cbn in Hx; try done.
    destruct Hx as [->|[]]. exact Hin.
  - intros Hin. exists (Id (Some id)). split; [exact Hin|by left].
Qed.

(** *** The model that is chosen *)

(** X20.  The model [fetchLatestAnthropicModel] returns is one of the listed ids
    that are strings.  When some listed id names a Sonnet, Opus or Haiku
    model (in any case), the model returned is one of these and no such id
    comes after it in the order of the code units; when none does, no listed
    id at all comes after it. *)
Theorem latest_model_is_greatest
  (apiKey : string) (answer : Answer) (latest : string) :
  fetchLatestAnthropicModel apiKey answer = Latest latest ->
  exists entries,
    answer = Listed entries
    /\ In (Id (Some latest)) entries
    /\ (forall id, In (Id (Some id)) entries -> family id = true ->
          family latest = true /\ JS.leq id latest = true)
    /\ (family latest = false ->
        forall id, In (Id (Some id)) entries -> JS.leq id latest = true).
Proof.
  unfold fetchLatestAnthropicModel.
  destruct (negb (JS.truthy apiKey)); [done|].
  destruct answer as [message| |entries]; [done|done|].
  destruct (existsb is_nullish entries); [done|].
  destruct (string_ids entries) as [|m0 models'] eqn:Hmodels; [done|].
  set (models := m0 :: models') in *.
  destruct (List.filter family models) as [|p0 prio'] eqn:Hprio.
  - (* no model of the three families *)
    pose proof (pop_sort models) as Hp.
    destruct (pop (JS.sort models)) as [m|]; [|done].
    intros [= ->]. destruct Hp as [Hin Hmax].
    exists entries. split; [done|].
    split; [apply string_ids_In; by rewrite Hmodels|].
    assert (forall id, In (Id (Some id)) entries -> family id = false) as Hnone.
    { intros id Hid. destruct (family id) eqn:Hf; [|done].
      assert (In id (List.filter family models)) as Hin'.
      { apply filter_In. split; [|done].
        rewrite <- Hmodels. by apply string_ids_In. }
      rewrite Hprio in Hin'. destruct Hin'. }
    split.
    + intros id Hid Hf. rewrite (Hnone id Hid) in Hf. discriminate.
    + intros _ id Hid. apply Hmax. rewrite <- Hmodels. by apply string_ids_In.
  - (* some model of the three families *)
    set (prioritized := p0 :: prio') in *.
    pose proof (pop_sort prioritized) as Hp.
    destruct (pop (JS.sort prioritized)) as [m|]; [|done].
    intros [= ->]. destruct Hp as [Hin Hmax].
    rewrite <- Hprio in Hin, Hmax.
    apply filter_In in Hin as [Hin Hfam].
    exists entries. split; [done|].
    split; [apply string_ids_In; by rewrite Hmodels|].
    split.
    + intros id Hid Hf. split; [exact Hfam|]. apply Hmax.
      apply filter_In. split; [|exact Hf].
      rewrite <- Hmodels. by apply string_ids_In.
    + intros Hnot. congruence.
Qed.

Example listed_models_latest :
  fetchLatestAnthropicModel "key" listed_models
  = Latest "claude-Sonnet-4-20250514"
  /\ JS.sort ["b"; "a"; "B"; "ab"; ""] = [""; "B"; "a"; "ab"; "b"].
Proof. by vm_compute. Qed.

Lemma latest_model_is_greatest_witness :
  exists entries,
    listed_models = Listed entries
    /\ In (Id (Some "claude-Sonnet-4-20250514")) entries
    /\ (forall id, In (Id (Some id)) entries -> family id = true ->
          family "claude-Sonnet-4-20250514" = true
          /\ JS.leq id "claude-Sonnet-4-20250514" = true)
    /\ (family "claude-Sonnet-4-20250514" = false ->
        forall id, In (Id (Some id)) entries ->
                   JS.leq id "claude-Sonnet-4-20250514" = true).
Proof.
  apply (latest_model_is_greatest "key" listed_models
           "claude-Sonnet-4-20250514").
  reflexivity.
Defined.

(** X21.  [fetchLatestAnthropicModel] returns a model exactly when there is a key,
    the answer is a list without nullish element, and some listed id is a
    string; an id that is not a string is passed over. *)
Theorem latest_model_found_iff (apiKey : string) (answer : Answer) :
  (exists latest, fetchLatestAnthropicModel apiKey answer = Latest latest)
  <-> JS.truthy apiKey = true
      /\ exists entries,
           answer = Listed entries
           /\ existsb is_nullish entries = false
           /\ exists id, In (Id (Some id)) entries.
Proof.
  unfold fetchLatestAnthropicModel. split.
  - intros [latest Hl]. destruct (JS.truthy apiKey); [|done].
    split; [done|]. cbn [negb] in Hl.
    destruct answer as [message| |entries]; [done|done|].
    exists entries. split; [done|].
    destruct (existsb is_nullish entries); [done|]. split; [done|].
    destruct (string_ids entries) as [|m0 models'] eqn:Hmodels; [done|].
    exists m0. apply string_ids_In. rewrite Hmodels. by left.
  - intros (-> & entries & -> & -> & id & Hid). cbn [negb].
    apply string_ids_In in Hid.
    destruct (string_ids entries) as [|m0 models'] eqn:Hmodels; [done|].
    destruct (pop _); by eexists.
Qed.

End LatestModelFacts.
